(** * A breadth-first web crawler: frontier, filters, robots cache, results

    The repository carries three generations of the crawler package:

    - [crawler.go] together with [result.go]: one [work] pass per level,
      a wait group over the fetchers, a merge after the pass;
    - the state machine over [*Node] queues ([crawlStartQueue],
      [crawlStart], [crawlDo], ... with [merge] reading the [newnodes]
      channel);
    - the [data.Address] generation ([CrawlList], [willCrawl],
      [merge(links)], [fetch(addr)] with a depth counter in the crawler).

    Each generation is embedded in a module of its own ([Work],
    [Machine], [Frontier]); what they share (addresses, links, results,
    the URL filter, the robots cache) comes first. *)

From stdpp Require Import gmap strings list fin_maps relations.
From Stdlib Require Import ZArith Ascii.

Open Scope string_scope.
Open Scope list_scope.
Open Scope Z_scope.

(** ** Data model *)

(** [url.URL] with the fields the crawler reads and writes. *)
Record URL := mkURL {
  UScheme : string;
  UHost : string;
  UPath : string;
  URawQuery : string;
  UFragment : string
}.

(** [Address]: the canonical form of a URL. It embeds the parsed
    [*url.URL]; [Full] is its string form ([Address.String()] in the
    older generations, the field [Full] in the latest). A [*Address] may
    be nil: pointers are [option]s. *)
Record Address := mkAddress {
  AddrURL : URL;
  Full : string
}.

Definition Host (a : Address) : string := UHost (AddrURL a).
Definition Scheme (a : Address) : string := UScheme (AddrURL a).

(** [RobotsPath()]: the path and the query, as the robots matcher
    expects them. *)
Definition RobotsPath (a : Address) : string :=
  if decide (URawQuery (AddrURL a) = "") then UPath (AddrURL a)
  else UPath (AddrURL a) +:+ "?" +:+ URawQuery (AddrURL a).

Record Link := mkLink {
  LinkAddress : option Address;
  Text : string;
  Nofollow : bool
}.

(** [Node] embeds [*Link] and adds the depth at which it was found. *)
Record Node := mkNode {
  NodeDepth : Z;
  NodeLink : Link
}.

Definition NodeAddress (n : Node) : option Address := LinkAddress (NodeLink n).
Definition NodeNofollow (n : Node) : bool := Nofollow (NodeLink n).

Record Pair := mkPair { Key : string; Val : string }.

Record Hreflang := mkHreflang { Href : string; Lang : string }.

(** [Result]. In [result.go] the struct has no [ResolvesTo] field; the
    later generations add it. Here the field is always present and the
    oldest generation leaves it nil. *)
Record Result := mkResult {
  Depth : Z;
  Description : string;
  Title : string;
  H1 : string;
  Robots : string;
  Canonical : string;
  Status : string;
  StatusCode : Z;
  Proto : string;
  ProtoMajor : Z;
  ProtoMinor : Z;
  Header : list Pair;
  Links : list Link;
  ResultHreflang : list Hreflang;
  ResultAddress : option Address;
  ResolvesTo : option Address
}.

(** [MakeResult]: every field but the address and the depth is the zero
    value of its type. *)
Definition MakeResult (addr : option Address) (depth : Z) : Result :=
  {| Depth := depth; Description := ""; Title := ""; H1 := "";
     Robots := ""; Canonical := ""; Status := ""; StatusCode := 0;
     Proto := ""; ProtoMajor := 0; ProtoMinor := 0; Header := [];
     Links := []; ResultHreflang := []; ResultAddress := addr;
     ResolvesTo := None |}.

Definition set_Status (r : Result) (s : string) : Result :=
  {| Depth := Depth r; Description := Description r; Title := Title r;
     H1 := H1 r; Robots := Robots r; Canonical := Canonical r;
     Status := s; StatusCode := StatusCode r; Proto := Proto r;
     ProtoMajor := ProtoMajor r; ProtoMinor := ProtoMinor r;
     Header := Header r; Links := Links r;
     ResultHreflang := ResultHreflang r;
     ResultAddress := ResultAddress r; ResolvesTo := ResolvesTo r |}.

Definition set_ResolvesTo (r : Result) (a : option Address) : Result :=
  {| Depth := Depth r; Description := Description r; Title := Title r;
     H1 := H1 r; Robots := Robots r; Canonical := Canonical r;
     Status := Status r; StatusCode := StatusCode r; Proto := Proto r;
     ProtoMajor := ProtoMajor r; ProtoMinor := ProtoMinor r;
     Header := Header r; Links := Links r;
     ResultHreflang := ResultHreflang r;
     ResultAddress := ResultAddress r; ResolvesTo := a |}.

(** The union of the [Config] structs of the three generations. *)
Record Config := mkConfig {
  Connections : Z;
  RobotsUserAgent : string;
  Include : list string;
  Exclude : list string;
  Start : string;
  RespectNofollow : bool;
  MaxDepth : Z;
  WaitTime : string;
  UserAgent : string
}.

#[global] Instance URL_eq_dec : EqDecision URL.
Proof. solve_decision. Defined.
#[global] Instance Address_eq_dec : EqDecision Address.
Proof. solve_decision. Defined.
#[global] Instance Link_eq_dec : EqDecision Link.
Proof. solve_decision. Defined.
#[global] Instance Node_eq_dec : EqDecision Node.
Proof. solve_decision. Defined.

(** ** The libraries the crawler calls

    [regexp], [net/url] and [robotstxt] are not part of the repository.
    Their values are abstract and their operations are the methods of
    three classes; every definition below is parametric in them. *)

(** [regexp.Regexp]; [MatchString] reports whether the string contains
    any match of the pattern (the match is not anchored); [Compile] is
    [regexp.MustCompile], [None] when it panics. *)
Class RegexpLib := {
  Regexp : Type;
  Compile : string -> option Regexp;
  MatchString : Regexp -> string -> bool
}.

(** [robotstxt.RobotsData]. [TestAgent] is a method of the pointer type
    and the crawler calls it on pointers that may be nil, so its
    receiver is an [option]. [FromResponse] is [None] when the library
    returns an error. *)
Class RobotsLib := {
  RobotsData : Type;
  RobotsBody : Type;
  FromResponse : Z -> RobotsBody -> option RobotsData;
  TestAgent : option RobotsData -> string -> string -> bool
}.

(** ** URL filter *)

Module URLFilter.
Section Filter.
Context `{RegexpLib}.

(** [preparePattern]: compile every pattern, in order. A pattern that
    does not compile panics ([None]). *)
Fixpoint preparePattern (patterns : list string) : option (list Regexp) :=
  match patterns with
  | [] => Some []
  | s :: rest =>
      match Compile s with
      | None => None
      | Some r =>
          match preparePattern rest with
          | None => None
          | Some compiled => Some (r :: compiled)
          end
      end
  end.

(** [for _, r := range ps { if r.MatchString(u) { return ... } }]:
    the loop, run until its first hit. *)
Fixpoint range_matches (ps : list Regexp) (u : string) : bool :=
  match ps with
  | [] => false
  | r :: rest => if MatchString r u then true else range_matches rest u
  end.

(** [willCrawl] / [WillCrawl], the same body in all three generations. *)
Definition willCrawl (include exclude : list Regexp) (fullurl : string) : bool :=
  if range_matches exclude fullurl then false
  else if range_matches include fullurl then true
  else if bool_decide (0 < Z.of_nat (length include)) then false
  else true.

(** The decision procedure in the words of the specification. *)
Inductive verdict := Accept | Reject.

Definition any_matches (ps : list Regexp) (u : string) : Prop :=
  ∃ p, p ∈ ps ∧ MatchString p u = true.

Inductive decides (include exclude : list Regexp) (u : string) : verdict -> Prop :=
| rule1 : any_matches exclude u -> decides include exclude u Reject
| rule2 : ¬ any_matches exclude u -> any_matches include u ->
          decides include exclude u Accept
| rule3 : ¬ any_matches exclude u -> ¬ any_matches include u ->
          include ≠ [] -> decides include exclude u Reject
| rule4 : ¬ any_matches exclude u -> ¬ any_matches include u ->
          include = [] -> decides include exclude u Accept.

Definition verdict_of (b : bool) : verdict := if b then Accept else Reject.

End Filter.
End URLFilter.

(** ** URLs

    Parsing, printing and reference resolution are the library's. *)
Class UrlLib := {
  url_Parse : string -> option URL;
  url_String : URL -> string;
  ResolveReference : URL -> URL -> URL
}.

(** [t.Fragment = ""] *)
Definition set_Fragment (u : URL) (f : string) : URL :=
  {| UScheme := UScheme u; UHost := UHost u; UPath := UPath u;
     URawQuery := URawQuery u; UFragment := f |}.



Module Addresses.
Section Addresses.
Context `{UrlLib}.

(** Modelled from the spec: the constructors of [Address] and [Link]
    (address.go, link.go) are not under src/. An Address is the
    canonical form of an absolute URL, made by parsing a raw string or
    by resolving a reference against a base; the fragment is stripped. A
    string that does not parse gives the nil Address. *)
Definition AddressOfURL (u : URL) : Address :=
  let t := set_Fragment u "" in
  {| AddrURL := t; Full := url_String t |}.

Definition MakeAddressFromString (s : string) : option Address :=
  AddressOfURL <$> url_Parse s.

Definition MakeAddressFromRelative (base : option Address) (href : string) : option Address :=
  match base with
  | None => None
  | Some b => (fun h => AddressOfURL (ResolveReference (AddrURL b) h)) <$> url_Parse href
  end.

(** [MakeLink(base, href, text, nofollow)] of the later generations. *)
Definition MakeLink (base : option Address) (href text : string) (nofollow : bool) : Link :=
  {| LinkAddress := MakeAddressFromRelative base href; Text := text; Nofollow := nofollow |}.

(** [MakeLink(full, text, nofollow)] as result.go calls it, and
    [MakeAbsoluteLink]. *)
Definition MakeAbsoluteLink (s text : string) (nofollow : bool) : Link :=
  {| LinkAddress := MakeAddressFromString s; Text := text; Nofollow := nofollow |}.

(** [MakeNode] *)
Definition MakeNode (d : Z) (s : string) : Node :=
  {| NodeDepth := d; NodeLink := MakeAbsoluteLink s "" false |}.

End Addresses.
End Addresses.

(** [linksToNodes] *)
Definition linksToNodes (depth : Z) (links : list Link) : list Node :=
  (fun link => {| NodeDepth := depth; NodeLink := link |}) <$> links.

(** ** Documents and scraping *)

Inductive NodeType :=
  ErrorNode | TextNode | DocumentNode | ElementNode | CommentNode | DoctypeNode.

#[global] Instance NodeType_eq_dec : EqDecision NodeType.
Proof. solve_decision. Defined.

Record Attribute := mkAttribute { AttrKey : string; AttrVal : string }.

(** [html.Node]: type, data (the tag name of an element, the text of a
    text node), attributes and children in document order. *)
#[warnings="-register-all"]
Inductive HtmlNode :=
  Html (ty : NodeType) (data : string) (attr : list Attribute) (children : list HtmlNode).

Definition HtmlType (n : HtmlNode) : NodeType := let 'Html ty _ _ _ := n in ty.
Definition HtmlData (n : HtmlNode) : string := let 'Html _ d _ _ := n in d.
Definition HtmlAttr (n : HtmlNode) : list Attribute := let 'Html _ _ a _ := n in a.
Definition HtmlChildren (n : HtmlNode) : list HtmlNode := let 'Html _ _ _ c := n in c.

Module scrape.

(** Modelled from the spec: the scrape package is not under src/. Link
    extraction enumerates all elements of a tag; the text of an element
    is the concatenated text below it; an attribute that is absent reads
    as the empty string. *)
Fixpoint GetNodesByTagName (tag : string) (n : HtmlNode) : list HtmlNode :=
  let 'Html ty data _ children := n in
  (if decide (ty = ElementNode ∧ data = tag) then [n] else []) ++
  (fix below (cs : list HtmlNode) : list HtmlNode :=
     match cs with
     | [] => []
     | c :: rest => GetNodesByTagName tag c ++ below rest
     end) children.

Fixpoint GetText (n : HtmlNode) : string :=
  let 'Html ty data _ children := n in
  (if decide (ty = TextNode) then data else "") +:+
  (fix below (cs : list HtmlNode) : string :=
     match cs with
     | [] => ""
     | c :: rest => GetText c +:+ below rest
     end) children.

Fixpoint attribute (key : string) (attr : list Attribute) : string :=
  match attr with
  | [] => ""
  | a :: rest => if decide (AttrKey a = key) then AttrVal a else attribute key rest
  end.

Definition GetAttribute (key : string) (n : HtmlNode) : string :=
  attribute key (HtmlAttr n).

Definition has_attributes (want : list (string * string)) (n : HtmlNode) : bool :=
  forallb (fun kv => bool_decide (GetAttribute kv.1 n = kv.2)) want.

Fixpoint QueryNodes (tag : string) (want : list (string * string)) (n : HtmlNode) : list HtmlNode :=
  let 'Html ty data _ children := n in
  (if decide (ty = ElementNode ∧ data = tag) then
     if has_attributes want n then [n] else []
   else []) ++
  (fix below (cs : list HtmlNode) : list HtmlNode :=
     match cs with
     | [] => []
     | c :: rest => QueryNodes tag want c ++ below rest
     end) children.

(** [QueryNode] is the first such node, or nil; reading the text or an
    attribute of nil gives the empty string. *)
Definition QueryNode (tag : string) (want : list (string * string)) (n : HtmlNode) : option HtmlNode :=
  head (QueryNodes tag want n).

Definition GetTextOpt (n : option HtmlNode) : string :=
  from_option GetText "" n.

Definition GetAttributeOpt (key : string) (n : option HtmlNode) : string :=
  from_option (GetAttribute key) "" n.

End scrape.

(** ** Responses *)

(** [http.Response] as the crawler reads it. [RespHeader] lists the
    header names with their values in the order [range] visits them;
    [RespDoc] is what [html.Parse] makes of the body, [None] when it
    returns an error. *)
Record Response := mkResponse {
  RespStatus : string;
  RespStatusCode : Z;
  RespProto : string;
  RespProtoMajor : Z;
  RespProtoMinor : Z;
  RespHeader : list (string * list string);
  RespDoc : option HtmlNode
}.

(** [resp.Header.Get(k)]: the first value of the header, or [""]. *)
Fixpoint Header_Get (h : list (string * list string)) (k : string) : string :=
  match h with
  | [] => ""
  | (k', vs) :: rest =>
      if decide (k' = k) then match vs with v :: _ => v | [] => "" end
      else Header_Get rest k
  end.

(** What a GET comes back with. *)
Inductive FetchOutcome :=
| RequestError            (* http.NewRequest fails *)
| GetError                (* the client returns an error *)
| GetResponse (resp : Response).

(** ** result.go *)

Module result.
Section Result.
Context `{UrlLib}.

(** The loop of [getLinks] over the anchors [els]; [n] is the node the
    function was called on. [url.Parse] returns a nil URL together with
    its error, the error is dropped, and [ResolveReference] dereferences
    its argument: an href that does not parse panics ([None]). *)
Fixpoint getLinks_range (base : URL) (n : HtmlNode) (els : list HtmlNode) : option (list Link) :=
  match els with
  | [] => Some []
  | a :: rest =>
      match url_Parse (scrape.GetAttribute "href" a) with
      | None => None
      | Some h =>
          let t := set_Fragment (ResolveReference base h) "" in
          let link := Addresses.MakeAbsoluteLink
                        (url_String t)
                        (scrape.GetText a)
                        (bool_decide (scrape.GetAttribute "rel" n = "nofollow")) in
          cons link <$> getLinks_range base n rest
      end
  end.

Definition getLinks (base : URL) (n : HtmlNode) : option (list Link) :=
  getLinks_range base n (scrape.GetNodesByTagName "a" n).

(** [getHreflang] *)
Definition getHreflang (base : URL) (n : HtmlNode) : list Hreflang :=
  omap (fun l =>
          let lang := scrape.GetAttribute "hreflang" l in
          let href := scrape.GetAttribute "href" l in
          if decide (href ≠ "") then Some {| Href := href; Lang := lang |} else None)
       (scrape.QueryNodes "link" [("rel", "alternate")] n).

(** [Hydrate]: response fields, scraped fields ([scrapeResult]),
    hreflang and links. The base of the links is the URL of the result's
    own address ([r.URL]). [None] is a panic: a nil address, or an href
    that does not parse. *)
Definition Hydrate (r : Result) (resp : Response) (doc : HtmlNode) : option Result :=
  a ← ResultAddress r;
  let base := AddrURL a in
  links ← getLinks base doc;
  Some {| Depth := Depth r;
          Description := scrape.GetAttributeOpt "content"
                           (scrape.QueryNode "meta" [("name", "description")] doc);
          Title := scrape.GetTextOpt (scrape.QueryNode "title" [] doc);
          H1 := scrape.GetTextOpt (scrape.QueryNode "h1" [] doc);
          Robots := scrape.GetAttributeOpt "content"
                      (scrape.QueryNode "meta" [("name", "robots")] doc);
          Canonical := scrape.GetAttributeOpt "href"
                         (scrape.QueryNode "link" [("rel", "canonical")] doc);
          Status := RespStatus resp;
          StatusCode := RespStatusCode resp;
          Proto := RespProto resp;
          ProtoMajor := RespProtoMajor resp;
          ProtoMinor := RespProtoMinor resp;
          Header := Header r ++
                    ((fun kv => {| Key := kv.1; Val := Header_Get (RespHeader resp) kv.1 |})
                       <$> RespHeader resp);
          Links := links;
          ResultHreflang := getHreflang base doc;
          ResultAddress := ResultAddress r;
          ResolvesTo := ResolvesTo r |}.

(** Modelled from the spec: the one-argument [Hydrate(resp)] of the later
    generations is not under src/. It parses the body itself and then
    fills the result as above; the parser is lenient, and a body it
    gives up on leaves the content fields empty. *)
Definition Hydrate1 (r : Result) (resp : Response) : option Result :=
  match RespDoc resp with
  | Some doc => Hydrate r resp doc
  | None => Hydrate r resp (Html DocumentNode "" [] [])
  end.

End Result.
End result.

(** What a fetch does besides talking to the network: the result it
    publishes on [c.results], if any, and what it hands over for
    merging. *)
Inductive FetchEffect :=
| Dropped (sent : list Node)
| Fetched (r : Result) (sent : list Node)
| Panicked.

(** The synthetic result of a URL that robots.txt denies. *)
Definition blocked_result (addr : option Address) (depth : Z) : Result :=
  set_Status (MakeResult addr depth) "Blocked by robots.txt".

(** [resp.StatusCode >= 300 && resp.StatusCode < 400] *)
Definition is_redirect (resp : Response) : bool :=
  bool_decide (RespStatusCode resp >= 300) && bool_decide (RespStatusCode resp < 400).

(** ** Robots cache *)

Module Robots.
Section Robots.
Context `{UrlLib} `{RobotsLib}.

(** What [http.Get] of a robots.txt comes back with. *)
Inductive RobotsFetch :=
| RobotsGetError
| RobotsGot (status : Z) (body : RobotsBody).

Definition robotsPath (url : URL) : string :=
  UScheme url +:+ "://" +:+ UHost url +:+ "/robots.txt".

(** [c.robots[host]] read as a value: the zero value nil for a host
    that is not in the map. *)
Definition matcher (robots : gmap string (option RobotsData)) (host : string) : option RobotsData :=
  default None (robots !! host).

(** [addRobots] of the state-machine and [data.Address] generations. *)
Definition addRobots (get : string -> RobotsFetch)
    (robots : gmap string (option RobotsData)) (fullurl : string)
    : gmap string (option RobotsData) :=
  match url_Parse fullurl with
  | None => robots
  | Some url =>
      let seen := <[UHost url := None]> robots in
      match get (robotsPath url) with
      | RobotsGetError => seen
      | RobotsGot status body =>
          if decide (status ≠ 200) then seen
          else match FromResponse status body with
               | None => seen
               | Some r => <[UHost url := Some r]> seen
               end
      end
  end.

(** [addRobots] of crawler.go: no look at the status, and whatever
    [FromResponse] returns is stored. *)
Definition addRobots_work (get : string -> RobotsFetch)
    (robots : gmap string (option RobotsData)) (fullurl : string)
    : gmap string (option RobotsData) :=
  match url_Parse fullurl with
  | None => robots
  | Some url =>
      let seen := <[UHost url := None]> robots in
      match get (robotsPath url) with
      | RobotsGetError => seen
      | RobotsGot status body => <[UHost url := FromResponse status body]> seen
      end
  end.

(** [if _, ok := c.robots[host]; !ok { c.addRobots(full) }] *)
Definition ensure (add : gmap string (option RobotsData) -> string -> gmap string (option RobotsData))
    (robots : gmap string (option RobotsData)) (a : Address)
    : gmap string (option RobotsData) :=
  match robots !! Host a with
  | Some _ => robots
  | None => add robots (Full a)
  end.

(** [c.robots[host].TestAgent(path, agent)] *)
Definition allowed (robots : gmap string (option RobotsData)) (a : Address) (agent : string) : bool :=
  TestAgent (matcher robots (Host a)) (RobotsPath a) agent.

End Robots.
End Robots.

(** ** crawler.go: one [work] pass per level *)

Module Work.
Section Work.
Context `{RegexpLib} `{UrlLib} `{RobotsLib}.

Record Crawler := mkCrawler {
  queue : list Node;
  Seen : gset string;
  results : list Result;
  robots : gmap string (option RobotsData);
  include : list Regexp;
  exclude : list Regexp;
  config : Config
}.

Definition set_robots (c : Crawler) (r : gmap string (option RobotsData)) : Crawler :=
  {| queue := queue c; Seen := Seen c; results := results c; robots := r;
     include := include c; exclude := exclude c; config := config c |}.

Definition set_queue (c : Crawler) (q : list Node) : Crawler :=
  {| queue := q; Seen := Seen c; results := results c; robots := robots c;
     include := include c; exclude := exclude c; config := config c |}.

Definition send_result (c : Crawler) (r : Result) : Crawler :=
  {| queue := queue c; Seen := Seen c; results := results c ++ [r];
     robots := robots c; include := include c; exclude := exclude c;
     config := config c |}.

(** [Crawl]: the first node, the empty maps, the compiled patterns.
    [None] when a pattern does not compile. *)
Definition Crawl (cfg : Config) : option Crawler :=
  let first := {| NodeDepth := 0;
                  NodeLink := Addresses.MakeAbsoluteLink (Start cfg) "" false |} in
  inc ← URLFilter.preparePattern (Include cfg);
  exc ← URLFilter.preparePattern (Exclude cfg);
  Some {| queue := [first]; Seen := ∅; results := []; robots := ∅;
          include := inc; exclude := exc; config := cfg |}.

Definition WillCrawl (c : Crawler) (u : string) : bool :=
  URLFilter.willCrawl (include c) (exclude c) u.

(** What the [switch] of [work] does with one node of the queue. *)
Inductive decision :=
| Skipped
| Blocked (r : Result)
| Dispatched.

(** One turn of the loop of [work], up to the point where the fetcher
    is spawned. [None]: the node has a nil address and
    [node.Address.String()] dereferences it. The last case of the
    switch only sleeps. *)
Definition work_node (get : string -> Robots.RobotsFetch) (c : Crawler) (node : Node)
    : option (Crawler * decision) :=
  if decide (NodeDepth node > MaxDepth (config c) ∧ MaxDepth (config c) >= 0)
  then Some (c, Skipped)
  else
    a ← NodeAddress node;
    if negb (WillCrawl c (Full a)) then Some (c, Skipped)
    else if decide (Robots.matcher (robots c) (Host a) = None) then
      let c1 := set_robots c (Robots.ensure (Robots.addRobots_work get) (robots c) a) in
      if negb (Robots.allowed (robots c1) a (RobotsUserAgent (config c)))
      then Some (c1, Blocked (blocked_result (NodeAddress node) (NodeDepth node)))
      else Some (c1, Dispatched)
    else if negb (Robots.allowed (robots c) a (RobotsUserAgent (config c)))
      then Some (c, Blocked (blocked_result (NodeAddress node) (NodeDepth node)))
      else Some (c, Dispatched).

(** [fetch] *)
Definition fetch (node : Node) (o : FetchOutcome) : FetchEffect :=
  let result := MakeResult (NodeAddress node) (NodeDepth node) in
  match NodeAddress node with
  | None => Panicked
  | Some _ =>
      match o with
      | RequestError | GetError => Dropped []
      | GetResponse resp =>
          match RespDoc resp with
          | None => Dropped []
          | Some tree =>
              match result.Hydrate result resp tree with
              | None => Panicked
              | Some result =>
                  let links :=
                    if is_redirect resp
                    then [Addresses.MakeLink (NodeAddress node)
                            (Header_Get (RespHeader resp) "Location") "" false]
                    else Links result in
                  Fetched result (linksToNodes (NodeDepth node + 1) links)
              end
          end
      end
  end.

(** The body of the inner loop of [merge]. *)
Definition merge_node (c : Crawler) (node : Node) : Crawler :=
  match NodeAddress node with
  | None => c
  | Some a =>
      if decide (Full a ∈ Seen c) then c
      else if NodeNofollow node && RespectNofollow (config c) then c
      else {| queue := queue c ++ [node]; Seen := {[Full a]} ∪ Seen c;
              results := results c; robots := robots c;
              include := include c; exclude := exclude c;
              config := config c |}
  end.

(** [merge(n)], given the [n] node lists the fetchers sent. *)
Definition merge (c : Crawler) (batches : list (list Node)) : Crawler :=
  foldl (foldl merge_node) (set_queue c []) batches.

(** The loop of [work] with the fetchers answering in the order in
    which they are spawned: the results in that order, and the node
    lists for the merge. *)
Fixpoint work_range (get : string -> Robots.RobotsFetch) (web : string -> FetchOutcome)
    (c : Crawler) (nodes : list Node) : option (Crawler * list (list Node)) :=
  match nodes with
  | [] => Some (c, [])
  | node :: rest =>
      '(c1, d) ← work_node get c node;
      match d with
      | Skipped => work_range get web c1 rest
      | Blocked r => work_range get web (send_result c1 r) rest
      | Dispatched =>
          a ← NodeAddress node;
          match fetch node (web (Full a)) with
          | Panicked => None
          | Dropped sent =>
              '(c2, batches) ← work_range get web c1 rest;
              Some (c2, sent :: batches)
          | Fetched r sent =>
              '(c2, batches) ← work_range get web (send_result c1 r) rest;
              Some (c2, sent :: batches)
          end
      end
  end.

Definition work (get : string -> Robots.RobotsFetch) (web : string -> FetchOutcome)
    (c : Crawler) : option Crawler :=
  '(c1, batches) ← work_range get web c (queue c);
  Some (merge c1 batches).

(** [for len(c.queue) > 0 { c.work() }], at most [fuel] passes. *)
Fixpoint crawl (fuel : nat) (get : string -> Robots.RobotsFetch)
    (web : string -> FetchOutcome) (c : Crawler) : option Crawler :=
  match fuel with
  | O => Some c
  | S fuel' =>
      match queue c with
      | [] => Some c
      | _ :: _ => c1 ← work get web c; crawl fuel' get web c1
      end
  end.

End Work.
End Work.

(** The tail of [fetch] in the two later generations, from
    [links := result.Links] to the end of the redirect branch: the
    result to publish and the links to merge. *)
Definition resolve_redirect `{UrlLib} (addr : option Address) (result : Result) (resp : Response)
    : Result * list Link :=
  let links := Links result in
  let result := set_ResolvesTo result (ResultAddress result) in
  if is_redirect resp
  then (set_ResolvesTo result
          (Addresses.MakeAddressFromRelative addr (Header_Get (RespHeader resp) "Location")),
        [Addresses.MakeLink addr (Header_Get (RespHeader resp) "Location") "" false])
  else (result, links).

(** ** The state machine over node queues *)

Module Machine.
Section Machine.
Context `{RegexpLib} `{UrlLib} `{RobotsLib}.

(** [connections] counts the permits taken from the semaphore, [wg] is
    the wait group's counter, [results] the buffer of the channel,
    oldest first. *)
Record Crawler := mkCrawler {
  queue : list Node;
  nextqueue : list Node;
  Seen : gset string;
  results : list Result;
  robots : gmap string (option RobotsData);
  connections : nat;
  wg : nat;
  include : list Regexp;
  exclude : list Regexp;
  config : Config
}.

Definition update (c : Crawler) (q nq : list Node) (seen : gset string)
    (rs : list Result) (rb : gmap string (option RobotsData)) (conn w : nat) : Crawler :=
  {| queue := q; nextqueue := nq; Seen := seen; results := rs; robots := rb;
     connections := conn; wg := w;
     include := include c; exclude := exclude c; config := config c |}.

Definition set_queues (c : Crawler) (q nq : list Node) : Crawler :=
  update c q nq (Seen c) (results c) (robots c) (connections c) (wg c).

Definition set_robots (c : Crawler) (rb : gmap string (option RobotsData)) : Crawler :=
  update c (queue c) (nextqueue c) (Seen c) (results c) rb (connections c) (wg c).

(** [c.results <- r] when there is room *)
Definition send_result (c : Crawler) (r : Result) : Crawler :=
  update c (queue c) (nextqueue c) (Seen c) (results c ++ [r]) (robots c)
         (connections c) (wg c).

(** [<-c.results] *)
Definition set_results (c : Crawler) (rs : list Result) : Crawler :=
  update c (queue c) (nextqueue c) (Seen c) rs (robots c) (connections c) (wg c).

(** [<-c.connections] *)
Definition release (c : Crawler) : Crawler :=
  update c (queue c) (nextqueue c) (Seen c) (results c) (robots c)
         (Nat.pred (connections c)) (wg c).

(** [c.connections <- true; c.wg.Add(1)] *)
Definition acquire (c : Crawler) : Crawler :=
  update c (queue c) (nextqueue c) (Seen c) (results c) (robots c)
         (S (connections c)) (S (wg c)).

(** [c.wg.Done()] *)
Definition done (c : Crawler) : Crawler :=
  update c (queue c) (nextqueue c) (Seen c) (results c) (robots c)
         (connections c) (Nat.pred (wg c)).

(** The capacity of [c.results]. *)
Definition results_cap : Z := 20.

(** [CrawlList]. It panics ([None]) on a negative channel size, on a
    pattern that does not compile, and on a seed whose address is nil. *)
Definition CrawlList (cfg : Config) (q : list Node) : option Crawler :=
  if decide (Connections cfg < 0) then None
  else
    inc ← URLFilter.preparePattern (Include cfg);
    exc ← URLFilter.preparePattern (Exclude cfg);
    keys ← mapM (fun v => Full <$> NodeAddress v) q;
    Some {| queue := q; nextqueue := []; Seen := list_to_set keys; results := [];
            robots := ∅; connections := 0; wg := 0;
            include := inc; exclude := exc; config := cfg |}.

Definition Crawl (cfg : Config) : option Crawler :=
  CrawlList cfg [Addresses.MakeNode 0 (Start cfg)].

Definition WillCrawl (c : Crawler) (u : string) : bool :=
  URLFilter.willCrawl (include c) (exclude c) u.

(** The states: one constructor per state function. *)
Inductive crawlfn :=
| fnStartQueue | fnNextQueue | fnStart | fnCheckRobots
| fnWait | fnNext | fnDo | fnAwait.

(** The goroutines besides the machine, each at the point where it can
    be held up. *)
Inductive goroutine :=
| Fetching (n : Node)          (* [c.fetch(node)], before the client answers *)
| Publishing (r : Result)      (* [c.fetch(node)], at [c.results <- result] *)
| Sending (nodes : list Node)  (* [go func() { c.newnodes <- nodes }()] *)
| Awaiting                     (* [c.merge()], at [<-c.newnodes] *)
| Merging (nodes : list Node)  (* [c.merge()], in its loop *).

Inductive panic := IndexOutOfRange | NilDereference.

(** What a call of a state function comes to: it returns the next
    state ([None] for [nil]) with the goroutines it spawned, or it
    blocks, or it panics. *)
Inductive Outcome :=
| Return (f : option crawlfn) (c : Crawler) (spawned : list goroutine)
| Blocks
| Panics (p : panic).

Definition crawlStartQueue (c : Crawler) : Outcome :=
  if decide (Z.of_nat (length (queue c)) > 0) then Return (Some fnStart) c []
  else Return None c [].

Definition crawlNextQueue (c : Crawler) : Outcome :=
  Return (Some fnStartQueue) (set_queues c (nextqueue c) []) [].

(** [early] is the reading of the clock:
    [time.Since(c.LastRequestTime) < c.wait]. *)
Definition crawlStart (early : bool) (c : Crawler) : Outcome :=
  match queue c with
  | [] => Panics IndexOutOfRange
  | node :: _ =>
      if early then Return (Some fnWait) c []
      else if decide (NodeDepth node > MaxDepth (config c) ∧ MaxDepth (config c) >= 0)
      then Return (Some fnNext) c []
      else match NodeAddress node with
           | None => Panics NilDereference
           | Some a =>
               if negb (WillCrawl c (Full a)) then Return (Some fnNext) c []
               else Return (Some fnDo) c []
           end
  end.

Definition crawlCheckRobots (get : string -> Robots.RobotsFetch) (c : Crawler) : Outcome :=
  match queue c with
  | [] => Panics IndexOutOfRange
  | node :: _ =>
      match NodeAddress node with
      | None => Panics NilDereference
      | Some a =>
          let c1 := set_robots c (Robots.ensure (Robots.addRobots get) (robots c) a) in
          if negb (Robots.allowed (robots c1) a (RobotsUserAgent (config c)))
          then
            if decide (Z.of_nat (length (results c1)) < results_cap)
            then Return (Some fnDo)
                   (send_result c1 (blocked_result (NodeAddress node) (NodeDepth node))) []
            else Blocks
          else Return (Some fnDo) c1 []
      end
  end.

Definition crawlWait (c : Crawler) : Outcome :=
  Return (Some fnStart) c [].

Definition crawlNext (c : Crawler) : Outcome :=
  match queue c with
  | [] => Panics IndexOutOfRange
  | _ :: rest =>
      let c1 := set_queues c rest (nextqueue c) in
      if decide (Z.of_nat (length rest) > 0) then Return (Some fnStart) c1 []
      else Return (Some fnAwait) c1 []
  end.

Definition crawlDo (c : Crawler) : Outcome :=
  match queue c with
  | [] => Panics IndexOutOfRange
  | node :: _ =>
      if decide (Z.of_nat (connections c) < Connections (config c))
      then Return (Some fnNext) (acquire c) [Fetching node; Awaiting]
      else Blocks
  end.

Definition crawlAwait (c : Crawler) : Outcome :=
  if decide (wg c = 0%nat) then Return (Some fnNextQueue) c [] else Blocks.

(** [f(c)] *)
Definition call (f : crawlfn) (early : bool) (get : string -> Robots.RobotsFetch)
    (c : Crawler) : Outcome :=
  match f with
  | fnStartQueue => crawlStartQueue c
  | fnNextQueue => crawlNextQueue c
  | fnStart => crawlStart early c
  | fnCheckRobots => crawlCheckRobots get c
  | fnWait => crawlWait c
  | fnNext => crawlNext c
  | fnDo => crawlDo c
  | fnAwait => crawlAwait c
  end.

(** One turn of the loop of [merge], the lock taken and given back. *)
Definition merge_node (c : Crawler) (node : Node) : Crawler :=
  match NodeAddress node with
  | None => c
  | Some a =>
      if negb (WillCrawl c (Full a)) then c
      else if decide (Full a ∈ Seen c) then c
      else if NodeNofollow node && RespectNofollow (config c) then c
      else update c (queue c) (nextqueue c ++ [node]) ({[Full a]} ∪ Seen c)
                  (results c) (robots c) (connections c) (wg c)
  end.

(** [fetch]: what it publishes and what it sends to [newnodes]. *)
Definition fetch (node : Node) (o : FetchOutcome) : FetchEffect :=
  let result := MakeResult (NodeAddress node) (NodeDepth node) in
  match NodeAddress node with
  | None => Panicked
  | Some _ =>
      match o with
      | RequestError | GetError => Dropped []
      | GetResponse resp =>
          match result.Hydrate1 result resp with
          | None => Panicked
          | Some result =>
              let '(result, links) := resolve_redirect (NodeAddress node) result resp in
              Fetched result (linksToNodes (NodeDepth node + 1) links)
          end
      end
  end.

(** The crawler with its goroutines and its consumer: the state [fn] of
    the machine ([None] once the loop has ended and [c.results] is
    closed), the other goroutines, and what [Next] has returned so far. *)
Record World := mkWorld {
  fn : option crawlfn;
  crawler : Crawler;
  pool : list goroutine;
  emitted : list Result
}.

Definition start (c : Crawler) : World :=
  {| fn := Some fnStartQueue; crawler := c; pool := []; emitted := [] |}.

(** The interleavings: at each step the machine or one goroutine moves,
    or the consumer calls [Next]. *)
Inductive step : World -> World -> Prop :=
| step_machine w f early get f' c' spawned :
    fn w = Some f ->
    call f early get (crawler w) = Return f' c' spawned ->
    step w {| fn := f'; crawler := c'; pool := pool w ++ spawned;
              emitted := emitted w |}
| step_fetch_dropped w p1 p2 node o sent :
    pool w = p1 ++ Fetching node :: p2 ->
    fetch node o = Dropped sent ->
    step w {| fn := fn w; crawler := release (crawler w);
              pool := p1 ++ Sending sent :: p2; emitted := emitted w |}
| step_fetch_fetched w p1 p2 node o r sent :
    pool w = p1 ++ Fetching node :: p2 ->
    fetch node o = Fetched r sent ->
    step w {| fn := fn w; crawler := crawler w;
              pool := p1 ++ Publishing r :: Sending sent :: p2;
              emitted := emitted w |}
| step_publish w p1 p2 r :
    pool w = p1 ++ Publishing r :: p2 ->
    is_Some (fn w) ->
    Z.of_nat (length (results (crawler w))) < results_cap ->
    step w {| fn := fn w; crawler := release (send_result (crawler w) r);
              pool := p1 ++ p2; emitted := emitted w |}
| step_handoff w p1 p2 q1 q2 nodes :
    pool w = p1 ++ Sending nodes :: p2 ->
    p1 ++ p2 = q1 ++ Awaiting :: q2 ->
    step w {| fn := fn w; crawler := crawler w;
              pool := q1 ++ Merging nodes :: q2; emitted := emitted w |}
| step_merge w p1 p2 node nodes :
    pool w = p1 ++ Merging (node :: nodes) :: p2 ->
    step w {| fn := fn w; crawler := merge_node (crawler w) node;
              pool := p1 ++ Merging nodes :: p2; emitted := emitted w |}
| step_merged w p1 p2 :
    pool w = p1 ++ Merging [] :: p2 ->
    step w {| fn := fn w; crawler := done (crawler w);
              pool := p1 ++ p2; emitted := emitted w |}
| step_Next w r rs :
    results (crawler w) = r :: rs ->
    step w {| fn := fn w; crawler := set_results (crawler w) rs;
              pool := pool w; emitted := emitted w ++ [r] |}.

(** [Next] has returned results in ascending order of depth. *)
Definition ascending (rs : list Result) : Prop :=
  ∀ i j r1 r2, (i < j)%nat -> rs !! i = Some r1 -> rs !! j = Some r2 ->
    Depth r1 <= Depth r2.

(** A schedule names who moves at each step: the machine, with the
    reading of the clock and the robots.txt answers it would get; the
    client answering the fetch of goroutine [i]; goroutine [i] sending
    its result; the sender [i] meeting the merge [j] (counted without
    the sender) on [newnodes]; the merge [i] taking a turn of its loop
    or returning; the consumer calling [Next]. *)
Inductive move :=
| Turn (early : bool) (get : string -> Robots.RobotsFetch)
| Answer (i : nat) (o : FetchOutcome)
| Publish (i : nat)
| Handoff (i j : nat)
| Merge (i : nat)
| CallNext.

Definition exec (m : move) (w : World) : option World :=
  match m with
  | Turn early get =>
      f ← fn w;
      match call f early get (crawler w) with
      | Return f' c' spawned =>
          Some {| fn := f'; crawler := c'; pool := pool w ++ spawned;
                  emitted := emitted w |}
      | _ => None
      end
  | Answer i o =>
      match pool w !! i with
      | Some (Fetching node) =>
          match fetch node o with
          | Dropped sent =>
              Some {| fn := fn w; crawler := release (crawler w);
                      pool := take i (pool w) ++ Sending sent :: drop (S i) (pool w);
                      emitted := emitted w |}
          | Fetched r sent =>
              Some {| fn := fn w; crawler := crawler w;
                      pool := take i (pool w) ++
                              Publishing r :: Sending sent :: drop (S i) (pool w);
                      emitted := emitted w |}
          | Panicked => None
          end
      | _ => None
      end
  | Publish i =>
      match pool w !! i with
      | Some (Publishing r) =>
          if decide (is_Some (fn w) ∧
                     Z.of_nat (length (results (crawler w))) < results_cap)
          then Some {| fn := fn w; crawler := release (send_result (crawler w) r);
                       pool := take i (pool w) ++ drop (S i) (pool w);
                       emitted := emitted w |}
          else None
      | _ => None
      end
  | Handoff i j =>
      match pool w !! i with
      | Some (Sending nodes) =>
          let others := take i (pool w) ++ drop (S i) (pool w) in
          match others !! j with
          | Some Awaiting =>
              Some {| fn := fn w; crawler := crawler w;
                      pool := take j others ++ Merging nodes :: drop (S j) others;
                      emitted := emitted w |}
          | _ => None
          end
      | _ => None
      end
  | Merge i =>
      match pool w !! i with
      | Some (Merging (node :: nodes)) =>
          Some {| fn := fn w; crawler := merge_node (crawler w) node;
                  pool := take i (pool w) ++ Merging nodes :: drop (S i) (pool w);
                  emitted := emitted w |}
      | Some (Merging []) =>
          Some {| fn := fn w; crawler := done (crawler w);
                  pool := take i (pool w) ++ drop (S i) (pool w);
                  emitted := emitted w |}
      | _ => None
      end
  | CallNext =>
      match results (crawler w) with
      | r :: rs =>
          Some {| fn := fn w; crawler := set_results (crawler w) rs;
                  pool := pool w; emitted := emitted w ++ [r] |}
      | [] => None
      end
  end.

Fixpoint run (schedule : list move) (w : World) : option World :=
  match schedule with
  | [] => Some w
  | m :: rest => w' ← exec m w; run rest w'
  end.

(** The URL strings, for the bookkeeping of who is to be fetched. *)
Definition key (n : Node) : option string := Full <$> NodeAddress n.

Definition result_key (r : Result) : option string := Full <$> ResultAddress r.

(** The URL a goroutine is going to publish a result for. *)
Definition goroutine_keys (g : goroutine) : list string :=
  match g with
  | Fetching n => option_list (key n)
  | Publishing r => option_list (result_key r)
  | _ => []
  end.

(** The part of the current queue that is still to be looked at: in
    [crawlNext] the head has been dealt with and is about to be cut. *)
Definition pending (w : World) : list Node :=
  match fn w with
  | Some fnNext => tail (queue (crawler w))
  | _ => queue (crawler w)
  end.

(** Every URL that has a result or is on its way to one. *)
Definition claimed (w : World) : list string :=
  omap result_key (emitted w) ++
  omap result_key (results (crawler w)) ++
  (pool w ≫= goroutine_keys) ++
  omap key (pending w) ++
  omap key (nextqueue (crawler w)).

(** The states in which the head of the queue is read. *)
Definition peeks (f : crawlfn) : Prop :=
  match f with
  | fnStart | fnCheckRobots | fnWait | fnNext | fnDo => True
  | fnStartQueue | fnNextQueue | fnAwait => False
  end.

(** The invariant behind the head peeks. *)
Definition head_safe (w : World) : Prop :=
  (∀ f, fn w = Some f -> peeks f -> queue (crawler w) ≠ []) ∧
  fn w ≠ Some fnCheckRobots.

(** The invariant behind the seen set: no URL is claimed twice, and
    every claimed URL has been seen. *)
Definition claims_unique (w : World) : Prop :=
  NoDup (claimed w) ∧ ∀ k, k ∈ claimed w -> k ∈ Seen (crawler w).

(** No URL string is the address of two of the results. *)
Definition distinct_addresses (rs : list Result) : Prop :=
  ∀ i j r1 r2 a1 a2,
    rs !! i = Some r1 -> rs !! j = Some r2 ->
    ResultAddress r1 = Some a1 -> ResultAddress r2 = Some a2 ->
    Full a1 = Full a2 -> i = j.

End Machine.
End Machine.

(** ** The [data.Address] generation *)

Module Frontier.
Section Frontier.
Context `{RegexpLib} `{UrlLib} `{RobotsLib}.

(** The queues hold the addresses behind the pointers: [CrawlList]
    reads [addr.Full] of every seed before anything else happens, and
    [merge] appends no nil address. *)
Record Crawler := mkCrawler {
  depth : Z;
  queue : list Address;
  seen : gset string;
  results : list Result;
  robots : gmap string (option RobotsData);
  nextqueue : list Address;
  include : list Regexp;
  exclude : list Regexp;
  config : Config
}.

(** [CrawlList]; [None] on a negative channel size, on a pattern that
    does not compile and on a nil seed. *)
Definition CrawlList (cfg : Config) (q : list (option Address)) : option Crawler :=
  if decide (Connections cfg < 0) then None
  else
    inc ← URLFilter.preparePattern (Include cfg);
    exc ← URLFilter.preparePattern (Exclude cfg);
    addrs ← mapM id q;
    Some {| depth := 0; queue := addrs; seen := list_to_set (Full <$> addrs);
            results := []; robots := ∅; nextqueue := [];
            include := inc; exclude := exc; config := cfg |}.

Definition Crawl (cfg : Config) : option Crawler :=
  CrawlList cfg [Addresses.MakeAddressFromString (Start cfg)].

Definition willCrawl (c : Crawler) (fullurl : string) : bool :=
  URLFilter.willCrawl (include c) (exclude c) fullurl.

(** One turn of the loop of [merge]. *)
Definition merge_link (c : Crawler) (link : Link) : Crawler :=
  match LinkAddress link with
  | None => c
  | Some a =>
      if negb (willCrawl c (Full a)) then c
      else if decide (Full a ∈ seen c) then c
      else if Nofollow link && RespectNofollow (config c) then c
      else {| depth := depth c; queue := queue c; seen := {[Full a]} ∪ seen c;
              results := results c; robots := robots c;
              nextqueue := nextqueue c ++ [a];
              include := include c; exclude := exclude c; config := config c |}
  end.

(** [merge] *)
Definition merge (c : Crawler) (links : list Link) : Crawler :=
  if negb (bool_decide (depth c < MaxDepth (config c))) then c
  else foldl merge_link c links.

Definition send_result (c : Crawler) (r : Result) : Crawler :=
  {| depth := depth c; queue := queue c; seen := seen c;
     results := results c ++ [r]; robots := robots c;
     nextqueue := nextqueue c; include := include c; exclude := exclude c;
     config := config c |}.

(** [fetch]: the crawler afterwards and the result it published, if
    any. [None] is a panic inside [Hydrate]. *)
Definition fetch (c : Crawler) (addr : Address) (o : FetchOutcome)
    : option (Crawler * option Result) :=
  let result := MakeResult (Some addr) (depth c) in
  match o with
  | RequestError => Some (c, None)
  | GetError => Some (c, None)
  | GetResponse resp =>
      result ← result.Hydrate1 result resp;
      let '(result, links) := resolve_redirect (Some addr) result resp in
      Some (send_result (merge c links) result, Some result)
  end.

End Frontier.
End Frontier.

(** ** Bookkeeping of the state machine

    The counts and the invariants behind the semaphore, the wait group
    and the levels. *)

Module Accounts.
Section Accounts.
Context `{RegexpLib} `{UrlLib} `{RobotsLib}.

Definition fetching (g : Machine.goroutine) : nat :=
  match g with Machine.Fetching _ => 1 | _ => 0 end.

Definition publishing (g : Machine.goroutine) : nat :=
  match g with Machine.Publishing _ => 1 | _ => 0 end.

Definition sending (g : Machine.goroutine) : nat :=
  match g with Machine.Sending _ => 1 | _ => 0 end.

Definition awaiting (g : Machine.goroutine) : nat :=
  match g with Machine.Awaiting => 1 | _ => 0 end.

Definition merging (g : Machine.goroutine) : nat :=
  match g with Machine.Merging _ => 1 | _ => 0 end.

(** How many goroutines of a kind there are. *)
Definition count (kind : Machine.goroutine -> nat) (pool : list Machine.goroutine) : nat :=
  sum_list_with kind pool.

(** The semaphore holds one permit for each fetch that has not returned,
    the wait group counts the merges that have not returned, and every
    merge that still waits on [newnodes] has its fetch or its sender. *)
Definition balanced (w : Machine.World) : Prop :=
  Machine.connections (Machine.crawler w) =
    (count fetching (Machine.pool w) + count publishing (Machine.pool w))%nat ∧
  Machine.wg (Machine.crawler w) =
    (count awaiting (Machine.pool w) + count merging (Machine.pool w))%nat ∧
  (count fetching (Machine.pool w) + count sending (Machine.pool w))%nat =
    count awaiting (Machine.pool w).

(** Between two levels: after [crawlAwait] has returned and until
    [crawlStart] is entered again, and once the loop has ended. *)
Definition quiet (w : Machine.World) : Prop :=
  match Machine.fn w with
  | Some Machine.fnAwait => Machine.queue (Machine.crawler w) = []
  | Some Machine.fnNextQueue =>
      Machine.wg (Machine.crawler w) = 0%nat ∧ Machine.queue (Machine.crawler w) = []
  | Some Machine.fnStartQueue =>
      Machine.wg (Machine.crawler w) = 0%nat ∧ Machine.nextqueue (Machine.crawler w) = []
  | None =>
      Machine.wg (Machine.crawler w) = 0%nat ∧
      Machine.queue (Machine.crawler w) = [] ∧ Machine.nextqueue (Machine.crawler w) = []
  | _ => True
  end.

(** Only fetchers that still have to send their result are left. *)
Definition only_publishing (pool : list Machine.goroutine) : Prop :=
  ∀ g, g ∈ pool -> ∃ r, g = Machine.Publishing r.




Definition has_address (n : Node) : Prop := is_Some (NodeAddress n).

Definition goroutine_addressed (g : Machine.goroutine) : Prop :=
  match g with
  | Machine.Fetching n => has_address n
  | _ => True
  end.

(** No nil address is queued or being fetched. *)
Definition addressed (w : Machine.World) : Prop :=
  Forall has_address (Machine.queue (Machine.crawler w)) ∧
  Forall has_address (Machine.nextqueue (Machine.crawler w)) ∧
  Forall goroutine_addressed (Machine.pool w).

(** What never changes in a run. *)
Definition same_setup (c c' : Machine.Crawler) : Prop :=
  Machine.config c' = Machine.config c ∧
  Machine.include c' = Machine.include c ∧
  Machine.exclude c' = Machine.exclude c ∧
  Machine.robots c' = Machine.robots c.

(** Nothing has been dispatched, sent or returned. *)
Definition idle (w : Machine.World) : Prop :=
  Machine.pool w = [] ∧ Machine.results (Machine.crawler w) = [] ∧
  Machine.emitted w = [] ∧ Machine.connections (Machine.crawler w) = 0%nat.

End Accounts.
End Accounts.

(** ** Instances of the libraries for the examples

    Small executable stand-ins: literal patterns matched anywhere in the
    string, URLs of the shape [scheme://host/path?query#fragment], and
    robots rules as a list of disallowed path prefixes. The theorems
    below hold for every implementation of the libraries; the closed
    examples run on these. *)

Module Examples.

Fixpoint contains (p s : string) : bool :=
  String.prefix p s ||
  match s with
  | EmptyString => false
  | String _ rest => contains p rest
  end.

#[export] Instance literal_regexp : RegexpLib :=
  {| Regexp := string; Compile := Some; MatchString := contains |}.

(** Cut a string at the first occurrence of a character. *)
Fixpoint cut (c : Ascii.ascii) (s : string) : string * option string :=
  match s with
  | EmptyString => (EmptyString, None)
  | String a rest =>
      if Ascii.eqb a c then (EmptyString, Some rest)
      else let '(l, r) := cut c rest in (String a l, r)
  end.

Definition parse_authority (scheme rest query fragment : string) : URL :=
  let '(host, path) := cut "/" rest in
  {| UScheme := scheme; UHost := host;
     UPath := match path with Some p => String "/" p | None => "" end;
     URawQuery := query; UFragment := fragment |}.

Definition parse (s : string) : option URL :=
  let '(s1, fragment) := cut "#" s in
  let '(s2, query) := cut "?" s1 in
  let fragment := default "" fragment in
  let query := default "" query in
  match cut ":" s2 with
  | (EmptyString, Some _) => None
  | (scheme, Some (String "/" (String "/" rest))) =>
      Some (parse_authority scheme rest query fragment)
  | _ =>
      Some {| UScheme := ""; UHost := ""; UPath := s2;
              URawQuery := query; UFragment := fragment |}
  end.

Definition print (u : URL) : string :=
  (if decide (UScheme u = "") then "" else UScheme u +:+ "://") +:+
  UHost u +:+ UPath u +:+
  (if decide (URawQuery u = "") then "" else "?" +:+ URawQuery u) +:+
  (if decide (UFragment u = "") then "" else "#" +:+ UFragment u).

(** Resolution of absolute references and of absolute paths; any other
    reference is appended to the base path. *)
Definition resolve (base ref : URL) : URL :=
  if decide (UScheme ref = "" ∧ UHost ref = "") then
    {| UScheme := UScheme base; UHost := UHost base;
       UPath := if String.prefix "/" (UPath ref) then UPath ref
                else if decide (UPath ref = "") then UPath base
                else UPath base +:+ UPath ref;
       URawQuery := URawQuery ref; UFragment := UFragment ref |}
  else
    {| UScheme := if decide (UScheme ref = "") then UScheme base else UScheme ref;
       UHost := UHost ref; UPath := UPath ref;
       URawQuery := URawQuery ref; UFragment := UFragment ref |}.

#[export] Instance simple_url : UrlLib :=
  {| url_Parse := parse; url_String := print; ResolveReference := resolve |}.

(** Robots rules: the path prefixes that are disallowed, for every
    agent. A nil matcher allows. *)
#[export] Instance prefix_robots : RobotsLib :=
  {| RobotsData := list string;
     RobotsBody := list string;
     FromResponse := fun _ body => Some body;
     TestAgent := fun r path _ =>
       match r with
       | None => true
       | Some rules => negb (existsb (fun p => String.prefix p path) rules)
       end |}.

Definition address (s : string) : Address :=
  default {| AddrURL := mkURL "" "" "" "" ""; Full := s |}
          (Addresses.MakeAddressFromString s).

Definition seed (s : string) : Node := Addresses.MakeNode 0 s.

Definition element (tag : string) (attr : list (string * string)) (children : list HtmlNode)
    : HtmlNode :=
  Html ElementNode tag ((fun kv => mkAttribute kv.1 kv.2) <$> attr) children.

Definition text (s : string) : HtmlNode := Html TextNode s [] [].

Definition page (body : list HtmlNode) : HtmlNode :=
  Html DocumentNode "" [] [element "html" [] [element "body" [] body]].

Definition ok (doc : HtmlNode) : Response :=
  {| RespStatus := "200 OK"; RespStatusCode := 200; RespProto := "HTTP/1.1";
     RespProtoMajor := 1; RespProtoMinor := 1; RespHeader := [];
     RespDoc := Some doc |}.

Definition moved (location : string) : Response :=
  {| RespStatus := "301 Moved Permanently"; RespStatusCode := 301;
     RespProto := "HTTP/1.1"; RespProtoMajor := 1; RespProtoMinor := 1;
     RespHeader := [("Location", [location])];
     RespDoc := Some (page []) |}.

Definition config0 : Config :=
  {| Connections := 2; RobotsUserAgent := "X"; Include := []; Exclude := [];
     Start := "http://h/"; RespectNofollow := true; MaxDepth := -1;
     WaitTime := "0s"; UserAgent := "crawl" |}.

(** *** The pages, crawlers and schedules of the examples *)

Definition no_robots : string -> Robots.RobotsFetch :=
  fun _ => Robots.RobotsGetError.

(** A page with one link, to [/b]. *)
Definition page_a : HtmlNode := page [element "a" [("href", "/b")] [text "b"]].

(** A page whose only link carries [rel="nofollow"]. *)
Definition page_nofollow : HtmlNode :=
  page [element "a" [("href", "/x"); ("rel", "nofollow")] [text "x"]].

(** What [CrawlList config0 [seed "http://h/"]] returns. *)
Definition crawler0 : Machine.Crawler :=
  {| Machine.queue := [seed "http://h/"]; Machine.nextqueue := [];
     Machine.Seen := {["http://h/"]}; Machine.results := [];
     Machine.robots := ∅; Machine.connections := 0; Machine.wg := 0;
     Machine.include := []; Machine.exclude := [];
     Machine.config := config0 |}.

(** The same with the seed given twice. *)
Definition crawler_twice : Machine.Crawler :=
  {| Machine.queue := [seed "http://h/"; seed "http://h/"]; Machine.nextqueue := [];
     Machine.Seen := {["http://h/"]}; Machine.results := [];
     Machine.robots := ∅; Machine.connections := 0; Machine.wg := 0;
     Machine.include := []; Machine.exclude := [];
     Machine.config := config0 |}.

(** The world a schedule leads to (the start if it does not run). *)
Definition after (schedule : list Machine.move) (c : Machine.Crawler) : Machine.World :=
  default (Machine.start c) (Machine.run schedule (Machine.start c)).

Definition turn : Machine.move := Machine.Turn false no_robots.

(** The seed [http://h/] links to [/b]. Its fetch hands its links to
    the merge and is then held up before [c.results <- result]; the
    merge finishes, the wait group opens, the machine promotes the next
    queue and dispatches [/b], whose fetch publishes first. *)
Definition race : list Machine.move :=
  [ turn;                                        (* crawlStartQueue: queue not empty *)
    turn;                                        (* crawlStart: to crawlDo *)
    turn;                                        (* crawlDo: fetch and merge spawned *)
    turn;                                        (* crawlNext: queue empty, to crawlAwait *)
    Machine.Answer 0 (GetResponse (ok page_a));  (* the seed is answered *)
    Machine.Handoff 1 1;                         (* its links reach the merge *)
    Machine.Merge 1;                             (* /b joins the next queue *)
    Machine.Merge 1;                             (* wg.Done *)
    turn;                                        (* crawlAwait: wg.Wait returns *)
    turn;                                        (* crawlNextQueue *)
    turn;                                        (* crawlStartQueue *)
    turn;                                        (* crawlStart *)
    turn;                                        (* crawlDo: /b dispatched at depth 1 *)
    Machine.Answer 1 (GetResponse (ok (page [])));
    Machine.Publish 1;                           (* the result of /b, depth 1 *)
    Machine.Publish 0;                           (* the result of the seed, depth 0 *)
    Machine.CallNext;
    Machine.CallNext ].

(** Both copies of a seed given twice are dispatched and answered. *)
Definition twice : list Machine.move :=
  [ turn; turn; turn;                            (* first copy dispatched *)
    turn;                                        (* crawlNext: one entry left *)
    turn; turn;                                  (* second copy dispatched *)
    Machine.Answer 0 (GetResponse (ok (page [])));
    Machine.Answer 3 (GetResponse (ok (page [])));
    Machine.Publish 0;
    Machine.Publish 2;
    Machine.CallNext;
    Machine.CallNext ].

(** A crawler whose cache holds rules for host [h] that deny
    [/private], looking at [http://h/private]. *)
Definition crawler_denied : Machine.Crawler :=
  {| Machine.queue := [seed "http://h/private"]; Machine.nextqueue := [];
     Machine.Seen := {["http://h/private"]}; Machine.results := [];
     Machine.robots := {["h" := Some ["/private"]]};
     Machine.connections := 0; Machine.wg := 0;
     Machine.include := []; Machine.exclude := [];
     Machine.config := config0 |}.

Definition work_denied : Work.Crawler :=
  {| Work.queue := [seed "http://h/private"]; Work.Seen := ∅; Work.results := [];
     Work.robots := {["h" := Some ["/private"]]};
     Work.include := []; Work.exclude := []; Work.config := config0 |}.

(** The [data.Address] crawler at the seed, [MaxDepth = -1]. *)
Definition frontier0 : Frontier.Crawler :=
  {| Frontier.depth := 0; Frontier.queue := [address "http://h/"];
     Frontier.seen := {["http://h/"]}; Frontier.results := [];
     Frontier.robots := ∅; Frontier.nextqueue := [];
     Frontier.include := []; Frontier.exclude := [];
     Frontier.config := config0 |}.

(** A robots.txt that answers 500 with rules in its body. *)
Definition robots_500 : string -> Robots.RobotsFetch :=
  fun _ => Robots.RobotsGot 500 ["/private"].

Definition fetched_result (e : FetchEffect) : Result :=
  match e with
  | Fetched r _ => r
  | _ => MakeResult None 0
  end.


(** A robots.txt that answers 200 and disallows [/private]. *)
Definition robots_private : string -> Robots.RobotsFetch :=
  fun _ => Robots.RobotsGot 200 ["/private"].

(** What [CrawlList config0 [seed "http://h/private"]] returns. *)
Definition crawler_private : Machine.Crawler :=
  {| Machine.queue := [seed "http://h/private"]; Machine.nextqueue := [];
     Machine.Seen := {["http://h/private"]}; Machine.results := [];
     Machine.robots := ∅; Machine.connections := 0; Machine.wg := 0;
     Machine.include := []; Machine.exclude := [];
     Machine.config := config0 |}.

(** The machine, asked about robots.txt, would be told that [/private]
    is disallowed. *)
Definition private_run : list Machine.move :=
  [ Machine.Turn false robots_private;
    Machine.Turn false robots_private;
    Machine.Turn false robots_private;
    Machine.Answer 0 (GetResponse (ok (page [])));
    Machine.Publish 0;
    Machine.CallNext ].

(** The link the page [page_nofollow] at [http://h/] yields, and the node
    it travels as. *)
Definition link_x : Link :=
  {| LinkAddress := Some (address "http://h/x"); Text := "x"; Nofollow := false |}.

Definition node_x : Node := {| NodeDepth := 1; NodeLink := link_x |}.

(** The crawler.go crawler at its start. *)
Definition work0 : Work.Crawler :=
  {| Work.queue := [seed "http://h/"]; Work.Seen := ∅; Work.results := [];
     Work.robots := ∅; Work.include := []; Work.exclude := [];
     Work.config := config0 |}.

(** A robots.txt that answers 200 and disallows nothing. *)
Definition robots_open : string -> Robots.RobotsFetch :=
  fun _ => Robots.RobotsGot 200 [].

(** A site of one page, which links to itself. *)
Definition loop_site : string -> FetchOutcome :=
  fun _ => GetResponse (ok (page [element "a" [("href", "/")] [text "home"]])).

(** The [data.Address] crawler fetching [http://h/a], which answers
    with a redirect to [/b]. *)
Definition frontier_moved : option (Frontier.Crawler * option Result) :=
  Frontier.fetch frontier0 (address "http://h/a") (GetResponse (moved "/b")).

(** *** Further examples *)

(** The schedule [race] up to the return of [crawlAwait]: the next
    queue is about to be promoted while the seed's fetch still has its
    result to send. *)
Definition race_until_promotion : list Machine.move := take 9 race.

(** A seed without links: its fetch hands over the empty list, the
    merge returns, the machine finds both queues empty and ends, all
    before the fetch has sent its result. *)
Definition early_close : list Machine.move :=
  [ turn; turn; turn; turn;
    Machine.Answer 0 (GetResponse (ok (page [])));
    Machine.Handoff 1 1;
    Machine.Merge 1;
    turn;                                        (* crawlAwait *)
    turn;                                        (* crawlNextQueue *)
    turn ].                                      (* crawlStartQueue: nil *)

(** [config0] without a connection. *)
Definition config_closed : Config :=
  {| Connections := 0; RobotsUserAgent := "X"; Include := []; Exclude := [];
     Start := "http://h/"; RespectNofollow := true; MaxDepth := -1;
     WaitTime := "0s"; UserAgent := "crawl" |}.

Definition crawler_closed : Machine.Crawler :=
  {| Machine.queue := [seed "http://h/"]; Machine.nextqueue := [];
     Machine.Seen := {["http://h/"]}; Machine.results := [];
     Machine.robots := ∅; Machine.connections := 0; Machine.wg := 0;
     Machine.include := []; Machine.exclude := [];
     Machine.config := config_closed |}.

(** The [data.Address] crawler with [MaxDepth = 3]. *)
Definition frontier3 : Frontier.Crawler :=
  {| Frontier.depth := 0; Frontier.queue := [address "http://h/"];
     Frontier.seen := {["http://h/"]}; Frontier.results := [];
     Frontier.robots := ∅; Frontier.nextqueue := [];
     Frontier.include := []; Frontier.exclude := [];
     Frontier.config :=
       {| Connections := 2; RobotsUserAgent := "X"; Include := []; Exclude := [];
          Start := "http://h/"; RespectNofollow := true; MaxDepth := 3;
          WaitTime := "0s"; UserAgent := "crawl" |} |}.

End Examples.

(** * Properties *)

(** ** The URL filter *)

Section FilterFacts.
Context {RL : RegexpLib}.

Lemma range_matches_spec (ps : list Regexp) (u : string) :
  URLFilter.range_matches ps u = true ↔ URLFilter.any_matches ps u.
Proof.
  unfold URLFilter.any_matches. induction ps as [|r rest IH]; simpl.
  - split; [done|]. intros (p & Hp & _). by apply elem_of_nil in Hp.
  - destruct (MatchString r u) eqn:Hr.
    + split; [|done]. intros _. exists r. split; [left|done].
    + rewrite IH. split.
      * intros (p & Hp & Hm). exists p. split; [by right|done].
      * intros (p & Hp & Hm). apply elem_of_cons in Hp as [->|Hp]; [congruence|].
        by exists p.
Qed.

Lemma range_matches_none (ps : list Regexp) (u : string) :
  URLFilter.range_matches ps u = false ↔ ¬ URLFilter.any_matches ps u.
Proof.
  rewrite <- range_matches_spec.
  destruct (URLFilter.range_matches ps u); naive_solver.
Qed.

Lemma decides_functional (inc exc : list Regexp) (u : string) v1 v2 :
  URLFilter.decides inc exc u v1 -> URLFilter.decides inc exc u v2 -> v1 = v2.
Proof. intros H1 H2. destruct H1; destruct H2; done. Qed.

Lemma willCrawl_decides (inc exc : list Regexp) (u : string) :
  URLFilter.decides inc exc u (URLFilter.verdict_of (URLFilter.willCrawl inc exc u)).
Proof.
  unfold URLFilter.willCrawl.
  destruct (URLFilter.range_matches exc u) eqn:He.
  { apply URLFilter.rule1. by apply range_matches_spec. }
  apply range_matches_none in He.
  destruct (URLFilter.range_matches inc u) eqn:Hi.
  { apply URLFilter.rule2; [done|]. by apply range_matches_spec. }
  apply range_matches_none in Hi.
  case_bool_decide as Hlen; simpl.
  - apply URLFilter.rule3; [done..|]. intros ->. simpl in Hlen. lia.
  - apply URLFilter.rule4; [done..|]. destruct inc; [done|]. simpl in Hlen. lia.
Qed.

(** C5. The filter decides a URL by the four rules, in their order:
    an exclude pattern that matches rejects; otherwise an include
    pattern that matches accepts; otherwise a non-empty include list
    rejects; otherwise the URL is accepted. The verdict [willCrawl]
    computes is the one the rules give, and the only one. *)
Theorem willCrawl_precedence (inc exc : list Regexp) (u : string) (v : URLFilter.verdict) :
  URLFilter.decides inc exc u v ↔
  v = URLFilter.verdict_of (URLFilter.willCrawl inc exc u).
Proof.
  split.
  - intros Hv. eapply decides_functional; [done|]. apply willCrawl_decides.
  - intros ->. apply willCrawl_decides.
Qed.

End FilterFacts.

(** ** Link extraction *)

Section ResultFacts.
Context {UL : UrlLib}.

Lemma getLinks_range_spec (base : URL) (n : HtmlNode) (els : list HtmlNode) (links : list Link) :
  result.getLinks_range base n els = Some links ->
  Forall2 (fun a l =>
      ∃ h, url_Parse (scrape.GetAttribute "href" a) = Some h ∧
           l = Addresses.MakeAbsoluteLink
                 (url_String (set_Fragment (ResolveReference base h) ""))
                 (scrape.GetText a)
                 (bool_decide (scrape.GetAttribute "rel" n = "nofollow")))
    els links.
Proof.
  revert links. induction els as [|a rest IH]; intros links; simpl.
  - intros [= <-]. constructor.
  - destruct (url_Parse (scrape.GetAttribute "href" a)) as [h|] eqn:Hh; [|done].
    destruct (result.getLinks_range base n rest) as [ls|] eqn:Hrest; [|done].
    simpl. intros [= <-]. constructor; [by exists h | by apply IH].
Qed.

(** One link for each anchor, with the text of the anchor. *)
Lemma getLinks_one_per_anchor (base : URL) (n : HtmlNode) (links : list Link) :
  result.getLinks base n = Some links ->
  Text <$> links = scrape.GetText <$> scrape.GetNodesByTagName "a" n.
Proof.
  unfold result.getLinks. intros Hl%getLinks_range_spec.
  induction Hl as [|a l els ls (h & _ & ->) _ IH]; [done|].
  simpl. by f_equal.
Qed.

(** The nofollow flag of every link is read off the node [getLinks] was
    called on, not off the anchor. *)
Lemma getLinks_nofollow_of_root (base : URL) (n : HtmlNode) (links : list Link) :
  result.getLinks base n = Some links ->
  Forall (fun l => Nofollow l = bool_decide (scrape.GetAttribute "rel" n = "nofollow")) links.
Proof.
  unfold result.getLinks. intros Hl%getLinks_range_spec.
  induction Hl as [|a l els ls (h & _ & ->) _ IH]; constructor; done.
Qed.


End ResultFacts.

(** ** Hydrate and fetch *)

Section FetchFacts.
Context {RL : RegexpLib} {UL : UrlLib} {BL : RobotsLib}.

Lemma Hydrate_keeps (r r' : Result) (resp : Response) (doc : HtmlNode) :
  result.Hydrate r resp doc = Some r' ->
  Depth r' = Depth r ∧ ResultAddress r' = ResultAddress r ∧
  ResolvesTo r' = ResolvesTo r ∧ StatusCode r' = RespStatusCode resp ∧
  ∃ a, ResultAddress r = Some a ∧ result.getLinks (AddrURL a) doc = Some (Links r').
Proof.
  unfold result.Hydrate. destruct (ResultAddress r) as [a|]; [|done]. simpl.
  destruct (result.getLinks (AddrURL a) doc) as [links|] eqn:Hl; [|done]. simpl.
  intros [= <-]. simpl. eauto 10.
Qed.

Lemma Hydrate1_keeps (r r' : Result) (resp : Response) :
  result.Hydrate1 r resp = Some r' ->
  Depth r' = Depth r ∧ ResultAddress r' = ResultAddress r ∧
  ResolvesTo r' = ResolvesTo r ∧ StatusCode r' = RespStatusCode resp.
Proof.
  unfold result.Hydrate1.
  destruct (RespDoc resp); intros (? & ? & ? & ? & _)%Hydrate_keeps; done.
Qed.

Lemma resolve_redirect_keeps (addr : option Address) (r r' : Result) (resp : Response)
    (links : list Link) :
  resolve_redirect addr r resp = (r', links) ->
  Depth r' = Depth r ∧ ResultAddress r' = ResultAddress r ∧ Links r' = Links r.
Proof.
  unfold resolve_redirect. destruct (is_redirect resp); intros [= <- <-]; done.
Qed.


Lemma Machine_fetch_Fetched (node : Node) (o : FetchOutcome) (r : Result) (sent : list Node) :
  Machine.fetch node o = Fetched r sent ->
  ∃ resp hydrated links,
    o = GetResponse resp ∧
    result.Hydrate1 (MakeResult (NodeAddress node) (NodeDepth node)) resp = Some hydrated ∧
    resolve_redirect (NodeAddress node) hydrated resp = (r, links) ∧
    sent = linksToNodes (NodeDepth node + 1) links.
Proof.
  unfold Machine.fetch. destruct (NodeAddress node) as [a|] eqn:Ha; [|done].
  destruct o as [| |resp]; try done.
  destruct (result.Hydrate1 _ resp) as [hydrated|] eqn:Hh; [|done].
  destruct (resolve_redirect _ hydrated resp) as [r' links] eqn:Hr.
  intros [= <- <-]. exists resp, hydrated, links. by rewrite Hh.
Qed.

Lemma Machine_fetch_result (node : Node) (o : FetchOutcome) (r : Result) (sent : list Node) :
  Machine.fetch node o = Fetched r sent ->
  Depth r = NodeDepth node ∧ ResultAddress r = NodeAddress node ∧
  is_Some (NodeAddress node) ∧
  Forall (fun n => NodeDepth n = NodeDepth node + 1) sent.
Proof.
  intros Hf. pose proof Hf as (resp & hydrated & links & -> & Hh & Hr & ->)%Machine_fetch_Fetched.
  apply Hydrate1_keeps in Hh as (Hd & Ha & _). simpl in *.
  apply resolve_redirect_keeps in Hr as (Hd' & Ha' & _).
  repeat split; try congruence.
  - unfold Machine.fetch in Hf. by destruct (NodeAddress node).
  - unfold linksToNodes. apply Forall_fmap, Forall_true. done.
Qed.


(** crawler.go: the same exchange of the links (the [Result] of
    result.go has no [ResolvesTo] to set). *)
Lemma Work_fetch_Fetched (node : Node) (resp : Response) (r : Result) (sent : list Node) :
  Work.fetch node (GetResponse resp) = Fetched r sent ->
  sent = linksToNodes (NodeDepth node + 1)
           (if decide (300 <= RespStatusCode resp < 400)
            then [Addresses.MakeLink (NodeAddress node)
                    (Header_Get (RespHeader resp) "Location") "" false]
            else Links r).
Proof.
  unfold Work.fetch. destruct (NodeAddress node) as [a|]; [|done].
  destruct (RespDoc resp) as [tree|]; [|done].
  destruct (result.Hydrate _ resp tree) as [hydrated|] eqn:Hh; [|done].
  intros [= <- <-]. f_equal. unfold is_redirect.
  destruct (decide (300 <= RespStatusCode resp < 400)).
  - by rewrite !bool_decide_eq_true_2 by lia.
  - destruct (bool_decide (RespStatusCode resp >= 300)) eqn:H1;
      destruct (bool_decide (RespStatusCode resp < 400)) eqn:H2; simpl; try done.
    apply bool_decide_eq_true in H1, H2. lia.
Qed.

End FetchFacts.

(** ** The robots cache *)

Section RobotsFacts.
Context {UL : UrlLib} {BL : RobotsLib}.

(** A fetch that fails, an answer other than 200 and a body that does
    not parse all leave nil for the host. *)
Lemma addRobots_failure_caches_nil (get : string -> Robots.RobotsFetch)
    (robots : gmap string (option RobotsData)) (u : string) (url : URL) :
  url_Parse u = Some url ->
  (get (Robots.robotsPath url) = Robots.RobotsGetError ∨
   ∃ status body, get (Robots.robotsPath url) = Robots.RobotsGot status body ∧
                  (status ≠ 200 ∨ FromResponse status body = None)) ->
  Robots.addRobots get robots u = <[UHost url := None]> robots.
Proof.
  intros Hu Hget. unfold Robots.addRobots. rewrite Hu.
  destruct Hget as [-> | (status & body & -> & Hfail)]; [done|].
  destruct (decide (status ≠ 200)) as [|Hs]; [done|].
  destruct Hfail as [Hs'|Hnone]; [done|]. by rewrite Hnone.
Qed.

Lemma addRobots_success (get : string -> Robots.RobotsFetch)
    (robots : gmap string (option RobotsData)) (u : string) (url : URL)
    (body : RobotsBody) (r : RobotsData) :
  url_Parse u = Some url ->
  get (Robots.robotsPath url) = Robots.RobotsGot 200 body ->
  FromResponse 200 body = Some r ->
  Robots.addRobots get robots u !! UHost url = Some (Some r).
Proof.
  intros Hu Hget Hr. unfold Robots.addRobots. rewrite Hu, Hget.
  destruct (decide (200 ≠ 200)); [done|]. rewrite Hr.
  by rewrite lookup_insert_eq.
Qed.

(** A host that is in the cache, with a matcher or with nil, is not
    fetched again. *)
Lemma ensure_cached
    (add : gmap string (option RobotsData) -> string -> gmap string (option RobotsData))
    (robots : gmap string (option RobotsData)) (a : Address) (m : option RobotsData) :
  robots !! Host a = Some m -> Robots.ensure add robots a = robots.
Proof. unfold Robots.ensure. by intros ->. Qed.

(** The answer for a host cached with nil is the library's answer on a
    nil matcher. *)
Lemma allowed_nil (robots : gmap string (option RobotsData)) (a : Address) (agent : string) :
  robots !! Host a = Some None ->
  Robots.allowed robots a agent = TestAgent None (RobotsPath a) agent.
Proof. unfold Robots.allowed, Robots.matcher. by intros ->. Qed.

(** crawler.go keeps what [FromResponse] makes of any answer. *)
Lemma addRobots_work_keeps_any_status (get : string -> Robots.RobotsFetch)
    (robots : gmap string (option RobotsData)) (u : string) (url : URL)
    (status : Z) (body : RobotsBody) :
  url_Parse u = Some url ->
  get (Robots.robotsPath url) = Robots.RobotsGot status body ->
  Robots.addRobots_work get robots u !! UHost url = Some (FromResponse status body).
Proof.
  intros Hu Hget. unfold Robots.addRobots_work. rewrite Hu, Hget.
  by rewrite lookup_insert_eq.
Qed.

End RobotsFacts.

(** ** Depth, nofollow and the seen set in the merges *)

Section MergeFacts.
Context {RL : RegexpLib} {UL : UrlLib} {BL : RobotsLib}.

(** The filter is asked about the full string form of the address:
    a link whose [Full] it rejects is not merged, and an entry whose
    [Full] it rejects is skipped by [crawlStart]. *)
Lemma merge_link_filtered (c : Frontier.Crawler) (link : Link) (a : Address) :
  LinkAddress link = Some a ->
  URLFilter.willCrawl (Frontier.include c) (Frontier.exclude c) (Full a) = false ->
  Frontier.merge_link c link = c.
Proof.
  intros Ha Hw. unfold Frontier.merge_link, Frontier.willCrawl. by rewrite Ha, Hw.
Qed.

Lemma crawlStart_filtered (c : Machine.Crawler) (node : Node) (rest : list Node)
    (a : Address) :
  Machine.queue c = node :: rest ->
  NodeAddress node = Some a ->
  URLFilter.willCrawl (Machine.include c) (Machine.exclude c) (Full a) = false ->
  Machine.crawlStart false c = Machine.Return (Some Machine.fnNext) c [].
Proof.
  intros Hq Ha Hw. unfold Machine.crawlStart, Machine.WillCrawl. rewrite Hq.
  destruct (decide _); [done|]. by rewrite Ha, Hw.
Qed.

(** The depth test of [crawlStart] never drops an entry when
    [MaxDepth] is negative. *)
Lemma crawlStart_unbounded (c : Machine.Crawler) (early : bool) (node : Node)
    (rest : list Node) (a : Address) :
  MaxDepth (Machine.config c) < 0 ->
  Machine.queue c = node :: rest ->
  NodeAddress node = Some a ->
  Machine.WillCrawl c (Full a) = true ->
  Machine.crawlStart false c = Machine.Return (Some Machine.fnDo) c [].
Proof.
  intros Hmax Hq Ha Hw. unfold Machine.crawlStart. rewrite Hq.
  destruct (decide _) as [[_ ?]|_]; [lia|]. by rewrite Ha, Hw.
Qed.

(** With [MaxDepth = 0] it drops what is deeper than the seeds. *)
Lemma crawlStart_seed_only (c : Machine.Crawler) (node : Node) (rest : list Node) :
  MaxDepth (Machine.config c) = 0 ->
  Machine.queue c = node :: rest ->
  NodeDepth node > 0 ->
  Machine.crawlStart false c = Machine.Return (Some Machine.fnNext) c [].
Proof.
  intros Hmax Hq Hd. unfold Machine.crawlStart. rewrite Hq.
  destruct (decide _) as [_|Hn]; [done|]. lia.
Qed.

Lemma work_node_unbounded (get : string -> Robots.RobotsFetch) (c c' : Work.Crawler)
    (node : Node) :
  MaxDepth (Work.config c) < 0 ->
  Work.work_node get c node = Some (c', Work.Skipped) ->
  ∃ a, NodeAddress node = Some a ∧ Work.WillCrawl c (Full a) = false.
Proof.
  intros Hmax. unfold Work.work_node.
  destruct (decide _) as [[_ ?]|_]; [lia|].
  destruct (NodeAddress node) as [a|]; [|done]. simpl.
  destruct (Work.WillCrawl c (Full a)) eqn:Hw; simpl.
  - repeat (destruct (decide _) || destruct (negb _)); done.
  - eauto.
Qed.

(** The [work] loop of crawler.go: an entry that passes the depth and
    filter tests and whose host has a matcher in the cache that denies
    it gets the synthetic result and no fetch. *)
Lemma work_node_blocked (get : string -> Robots.RobotsFetch) (c : Work.Crawler)
    (node : Node) (a : Address) (r : RobotsData) :
  NodeAddress node = Some a ->
  ¬ (NodeDepth node > MaxDepth (Work.config c) ∧ MaxDepth (Work.config c) >= 0) ->
  Work.WillCrawl c (Full a) = true ->
  Work.robots c !! Host a = Some (Some r) ->
  TestAgent (Some r) (RobotsPath a) (RobotsUserAgent (Work.config c)) = false ->
  Work.work_node get c node =
    Some (c, Work.Blocked (blocked_result (Some a) (NodeDepth node))).
Proof.
  intros Ha Hd Hw Hr Ht. unfold Work.work_node.
  destruct (decide _) as [|_]; [done|]. rewrite Ha. simpl. rewrite Hw. simpl.
  unfold Robots.matcher, Robots.allowed, Robots.matcher. rewrite Hr. simpl.
  destruct (decide (Some r = None)); [done|]. by rewrite Ht.
Qed.

(** A nofollow link is not enqueued when [RespectNofollow] is set. *)
Lemma merge_node_nofollow (c : Machine.Crawler) (node : Node) :
  NodeNofollow node = true -> RespectNofollow (Machine.config c) = true ->
  Machine.merge_node c node = c.
Proof.
  intros Hn Hr. unfold Machine.merge_node. rewrite Hn, Hr.
  repeat case_match; done.
Qed.

Lemma merge_link_nofollow (c : Frontier.Crawler) (link : Link) :
  Nofollow link = true -> RespectNofollow (Frontier.config c) = true ->
  Frontier.merge_link c link = c.
Proof.
  intros Hn Hr. unfold Frontier.merge_link. rewrite Hn, Hr.
  repeat case_match; done.
Qed.

Lemma Work_merge_node_nofollow (c : Work.Crawler) (node : Node) :
  NodeNofollow node = true -> RespectNofollow (Work.config c) = true ->
  Work.merge_node c node = c.
Proof.
  intros Hn Hr. unfold Work.merge_node. rewrite Hn, Hr.
  repeat case_match; done.
Qed.

(** [merge] of the [data.Address] generation enqueues nothing unless the
    depth of the crawler is below [MaxDepth]. *)
Lemma merge_depth_gate (c : Frontier.Crawler) (links : list Link) :
  ¬ Frontier.depth c < MaxDepth (Frontier.config c) ->
  Frontier.merge c links = c.
Proof.
  intros Hd. unfold Frontier.merge. by rewrite bool_decide_eq_false_2.
Qed.

(** An address joins the next queue and the seen set in one step, and
    only when it was not seen before. *)
Lemma merge_node_cases (c : Machine.Crawler) (node : Node) :
  Machine.merge_node c node = c ∨
  ∃ a, NodeAddress node = Some a ∧ (Full a ∉ Machine.Seen c) ∧
       Machine.merge_node c node =
       Machine.update c (Machine.queue c) (Machine.nextqueue c ++ [node])
         ({[Full a]} ∪ Machine.Seen c) (Machine.results c) (Machine.robots c)
         (Machine.connections c) (Machine.wg c).
Proof.
  unfold Machine.merge_node. destruct (NodeAddress node) as [a|]; [|by left].
  destruct (negb _); [by left|].
  destruct (decide (Full a ∈ Machine.Seen c)); [by left|].
  destruct (_ && _); [by left|]. right. by exists a.
Qed.

Lemma merge_link_cases (c : Frontier.Crawler) (link : Link) :
  Frontier.merge_link c link = c ∨
  ∃ a, LinkAddress link = Some a ∧ (Full a ∉ Frontier.seen c) ∧
       Frontier.nextqueue (Frontier.merge_link c link) = Frontier.nextqueue c ++ [a] ∧
       Frontier.seen (Frontier.merge_link c link) = {[Full a]} ∪ Frontier.seen c ∧
       Frontier.queue (Frontier.merge_link c link) = Frontier.queue c.
Proof.
  unfold Frontier.merge_link. destruct (LinkAddress link) as [a|]; [|by left].
  destruct (negb _); [by left|].
  destruct (decide (Full a ∈ Frontier.seen c)); [by left|].
  destruct (_ && _); [by left|]. right. by exists a.
Qed.

(** [CrawlList] puts every seed into the seen set. *)
Lemma CrawlList_seeds_seen (cfg : Config) (q : list Node) (c : Machine.Crawler) :
  Machine.CrawlList cfg q = Some c ->
  Machine.queue c = q ∧ Machine.nextqueue c = [] ∧ Machine.results c = [] ∧
  Machine.config c = cfg ∧
  mapM Machine.key q = Some (omap Machine.key q) ∧
  ∀ k, k ∈ Machine.Seen c ↔ k ∈ omap Machine.key q.
Proof.
  unfold Machine.CrawlList. destruct (decide _); [done|].
  destruct (URLFilter.preparePattern (Include cfg)) as [inc|]; [|done]. simpl.
  destruct (URLFilter.preparePattern (Exclude cfg)) as [exc|]; [|done]. simpl.
  destruct (mapM _ q) as [keys|] eqn:Hk; [|done]. simpl.
  intros [= <-]. simpl. repeat (split; [done|]).
  assert (omap Machine.key q = keys) as Hkeys.
  { apply mapM_Some in Hk. induction Hk as [|v k vs ks Hv _ IH]; [done|].
    simpl. unfold Machine.key at 1. rewrite Hv. by f_equal. }
  rewrite Hkeys. split; [done|]. intros k. apply elem_of_list_to_set.
Qed.

Lemma Frontier_CrawlList_seeds_seen (cfg : Config) (q : list (option Address))
    (c : Frontier.Crawler) :
  Frontier.CrawlList cfg q = Some c ->
  Some <$> Frontier.queue c = q ∧
  ∀ a, a ∈ Frontier.queue c -> Full a ∈ Frontier.seen c.
Proof.
  unfold Frontier.CrawlList. destruct (decide _); [done|].
  destruct (URLFilter.preparePattern (Include cfg)) as [inc|]; [|done]. simpl.
  destruct (URLFilter.preparePattern (Exclude cfg)) as [exc|]; [|done]. simpl.
  destruct (mapM id q) as [addrs|] eqn:Hq; [|done]. simpl.
  intros [= <-]. simpl. split.
  - apply mapM_Some in Hq. induction Hq as [|x a xs addrs' Hx _ IH]; [done|].
    unfold id in Hx. subst x. rewrite <- IH. reflexivity.
  - intros a Ha. apply elem_of_list_to_set. by apply list_elem_of_fmap_2.
Qed.

End MergeFacts.

(** ** The state machine *)

Section MachineFacts.
Context {RL : RegexpLib} {UL : UrlLib} {BL : RobotsLib}.

(** No state function hands over to [crawlCheckRobots], and a state
    that reads the head of the queue is entered with a queue that has
    one. *)
Lemma call_next (f : Machine.crawlfn) (early : bool) (get : string -> Robots.RobotsFetch)
    (c c' : Machine.Crawler) (f' : Machine.crawlfn) (spawned : list Machine.goroutine) :
  Machine.call f early get c = Machine.Return (Some f') c' spawned ->
  (Machine.peeks f -> Machine.queue c ≠ []) ->
  f' ≠ Machine.fnCheckRobots ∧ (Machine.peeks f' -> Machine.queue c' ≠ []).
Proof.
  intros Hcall Hq. destruct f; simpl in Hcall.
  - unfold Machine.crawlStartQueue in Hcall.
    destruct (decide _) as [Hlen|]; [|done]. injection Hcall as <- <- <-.
    split; [done|]. intros _ Hnil. rewrite Hnil in Hlen. simpl in Hlen. lia.
  - injection Hcall as <- <- <-. done.
  - unfold Machine.crawlStart in Hcall. specialize (Hq I).
    destruct (Machine.queue c) as [|node rest] eqn:Hqc; [done|].
    repeat case_match; simplify_eq; (split; [done|]); intros _; by rewrite Hqc.
  - unfold Machine.crawlCheckRobots in Hcall.
    destruct (Machine.queue c) as [|node rest] eqn:Hqc; [done|].
    repeat case_match; simplify_eq; (split; [done|]); intros _; simpl; by rewrite Hqc.
  - injection Hcall as <- <- <-. split; [done|]. intros _. by apply Hq.
  - unfold Machine.crawlNext in Hcall.
    destruct (Machine.queue c) as [|node rest] eqn:Hqc; [done|].
    destruct (decide _) as [Hlen|]; injection Hcall as <- <- <-; [|done].
    split; [done|]. intros _. simpl. intros Hnil. rewrite Hnil in Hlen. simpl in Hlen. lia.
  - unfold Machine.crawlDo in Hcall. specialize (Hq I).
    destruct (Machine.queue c) as [|node rest] eqn:Hqc; [done|].
    destruct (decide _); [|done]. injection Hcall as <- <- <-.
    split; [done|]. intros _. simpl. by rewrite Hqc.
  - unfold Machine.crawlAwait in Hcall. destruct (decide _); [|done].
    injection Hcall as <- <- <-. done.
Qed.

Lemma merge_node_queue (c : Machine.Crawler) (node : Node) :
  Machine.queue (Machine.merge_node c node) = Machine.queue c.
Proof. destruct (merge_node_cases c node) as [->|(a & _ & _ & ->)]; done. Qed.

Lemma head_safe_step (w w' : Machine.World) :
  Machine.head_safe w -> Machine.step w w' -> Machine.head_safe w'.
Proof.
  intros [Hq Hrobots] Hstep.
  destruct Hstep as [w f early get f' c' spawned Hf Hcall | | | | | | | ];
    try (split; [intros f0 Hf0 Hp; simpl in *; try rewrite merge_node_queue; by eapply Hq
                | done]).
  destruct f' as [f'|]; [|by split].
  apply call_next in Hcall as [Hne Hq']; [|by apply Hq].
  split; simpl; [|congruence]. intros f0 [= <-]. done.
Qed.

Lemma head_safe_start (c : Machine.Crawler) : Machine.head_safe (Machine.start c).
Proof. split; simpl; [|done]. intros f [= <-]. done. Qed.

Lemma head_safe_reachable (c : Machine.Crawler) (w : Machine.World) :
  rtc Machine.step (Machine.start c) w -> Machine.head_safe w.
Proof.
  intros Hrun. apply rtc_ind_r with (P := Machine.head_safe) (x := Machine.start c) in Hrun;
    eauto using head_safe_start, head_safe_step.
Qed.

(** C10. In every state the machine can reach, whatever the
    interleaving, a state function that reads [c.queue[0]] finds the
    queue non-empty; in particular [crawlStart] is only entered with a
    non-empty queue, and no call of a state function panics with an
    index out of range. *)
Theorem head_peek_in_bounds (c : Machine.Crawler) (w : Machine.World)
    (f : Machine.crawlfn) :
  rtc Machine.step (Machine.start c) w ->
  Machine.fn w = Some f ->
  (Machine.peeks f -> Machine.queue (Machine.crawler w) ≠ []) ∧
  ∀ early get,
    Machine.call f early get (Machine.crawler w) ≠ Machine.Panics Machine.IndexOutOfRange.
Proof.
  intros [Hq _]%head_safe_reachable Hf. specialize (Hq f Hf).
  split; [done|]. intros early get.
  destruct f; simpl in *;
    unfold Machine.crawlStartQueue, Machine.crawlNextQueue, Machine.crawlStart,
      Machine.crawlCheckRobots, Machine.crawlWait, Machine.crawlNext,
      Machine.crawlDo, Machine.crawlAwait;
    try specialize (Hq I);
    try (destruct (Machine.queue (Machine.crawler w)); [done|]);
    repeat case_match; done.
Qed.

(** [crawlCheckRobots] is never entered. *)
Lemma crawlCheckRobots_unreachable (c : Machine.Crawler) (w : Machine.World) :
  rtc Machine.step (Machine.start c) w -> Machine.fn w ≠ Some Machine.fnCheckRobots.
Proof. by intros [_ ?]%head_safe_reachable. Qed.

(** A schedule that runs is an interleaving. *)
Lemma exec_step (m : Machine.move) (w w' : Machine.World) :
  Machine.exec m w = Some w' -> Machine.step w w'.
Proof.
  destruct m as [early get|i o|i|i j|i|]; simpl.
  - destruct (Machine.fn w) as [f|] eqn:Hf; [|done]. simpl.
    destruct (Machine.call f early get (Machine.crawler w)) eqn:Hcall; [|done..].
    intros [= <-]. by eapply Machine.step_machine.
  - destruct (Machine.pool w !! i) as [[node| | | |]|] eqn:Hi; try done.
    apply take_drop_middle in Hi.
    destruct (Machine.fetch node o) eqn:Hfetch; [| |done]; intros [= <-].
    + by eapply Machine.step_fetch_dropped.
    + by eapply Machine.step_fetch_fetched.
  - destruct (Machine.pool w !! i) as [[|r| | |]|] eqn:Hi; try done.
    apply take_drop_middle in Hi.
    destruct (decide _) as [[Hopen Hroom]|]; [|done]. intros [= <-].
    by eapply Machine.step_publish.
  - destruct (Machine.pool w !! i) as [[| |nodes| |]|] eqn:Hi; try done.
    apply take_drop_middle in Hi.
    destruct ((take i (Machine.pool w) ++ drop (S i) (Machine.pool w)) !! j)
      as [[| | | |]|] eqn:Hj; try done.
    apply take_drop_middle in Hj. intros [= <-].
    by eapply Machine.step_handoff.
  - destruct (Machine.pool w !! i) as [[| | | |[|node nodes]]|] eqn:Hi; try done;
      apply take_drop_middle in Hi; intros [= <-].
    + by eapply Machine.step_merged.
    + by eapply Machine.step_merge.
  - destruct (Machine.results (Machine.crawler w)) as [|r rs] eqn:Hr; [done|].
    intros [= <-]. by eapply Machine.step_Next.
Qed.

Lemma run_reaches (schedule : list Machine.move) (w w' : Machine.World) :
  Machine.run schedule w = Some w' -> rtc Machine.step w w'.
Proof.
  revert w. induction schedule as [|m rest IH]; intros w; simpl.
  - intros [= <-]. done.
  - destruct (Machine.exec m w) as [w1|] eqn:Hm; [|done]. simpl. intros Hrest.
    eapply rtc_l; [by eapply exec_step|by apply IH].
Qed.

End MachineFacts.

(** ** No URL is fetched twice *)

Section ClaimFacts.
Context {RL : RegexpLib} {UL : UrlLib} {BL : RobotsLib}.

Lemma omap_cons_option_list {A B} (f : A -> option B) (x : A) (l : list A) :
  omap f (x :: l) = option_list (f x) ++ omap f l.
Proof. simpl. by destruct (f x). Qed.

Lemma submseteq_NoDup {A} (l k : list A) : l ⊆+ k -> NoDup k -> NoDup l.
Proof.
  intros [k' Hk]%submseteq_Permutation. rewrite Hk.
  by intros [? _]%NoDup_app.
Qed.

(** A step of the machine claims nothing new. *)
Lemma machine_step_claimed (w : Machine.World) (f : Machine.crawlfn) (early : bool)
    (get : string -> Robots.RobotsFetch) (f' : option Machine.crawlfn)
    (c' : Machine.Crawler) (spawned : list Machine.goroutine) :
  Machine.fn w = Some f -> f ≠ Machine.fnCheckRobots ->
  Machine.call f early get (Machine.crawler w) = Machine.Return f' c' spawned ->
  Machine.claimed {| Machine.fn := f'; Machine.crawler := c';
                     Machine.pool := Machine.pool w ++ spawned;
                     Machine.emitted := Machine.emitted w |}
    ⊆+ Machine.claimed w ∧
  Machine.Seen c' = Machine.Seen (Machine.crawler w).
Proof.
  destruct w as [fnw c pool em]. simpl. intros -> Hne Hcall.
  unfold Machine.claimed, Machine.pending. simpl.
  assert (∀ (l1 l2 : list string), l1 ⊆+ l2 -> l1 ⊆+ l2 ∧ Machine.Seen c = Machine.Seen c)
    as Hsame by done.
  destruct f; simpl in Hcall; try done.
  - unfold Machine.crawlStartQueue in Hcall.
    destruct (decide _); injection Hcall as <- <- <-;
      rewrite app_nil_r; done.
  - injection Hcall as <- <- <-. simpl. rewrite !app_nil_r.
    apply Hsame. solve_submseteq.
  - unfold Machine.crawlStart in Hcall.
    destruct (Machine.queue c) as [|node rest] eqn:Hq; [done|].
    repeat case_match; simplify_eq; rewrite app_nil_r, ?Hq; try done.
    all: apply Hsame; simpl; destruct (Machine.key node); solve_submseteq.
  - injection Hcall as <- <- <-. by rewrite app_nil_r.
  - unfold Machine.crawlNext in Hcall.
    destruct (Machine.queue c) as [|node rest] eqn:Hq; [done|].
    destruct (decide _); injection Hcall as <- <- <-; simpl; by rewrite app_nil_r.
  - unfold Machine.crawlDo in Hcall.
    destruct (Machine.queue c) as [|node rest] eqn:Hq; [done|].
    destruct (decide _); [|done]. injection Hcall as <- <- <-. simpl.
    rewrite Hq, bind_app. simpl. rewrite !app_nil_r. apply Hsame.
    destruct (Machine.key node); simpl; solve_submseteq.
  - unfold Machine.crawlAwait in Hcall.
    destruct (decide _); [|done]. injection Hcall as <- <- <-. by rewrite app_nil_r.
Qed.

(** Every step either claims nothing new, or it is the merge of a node
    whose URL had not been seen and is marked as seen in the same step. *)
Lemma step_claimed (w w' : Machine.World) :
  Machine.step w w' ->
  Machine.fn w ≠ Some Machine.fnCheckRobots ->
  (Machine.claimed w' ⊆+ Machine.claimed w ∧
   Machine.Seen (Machine.crawler w') = Machine.Seen (Machine.crawler w)) ∨
  ∃ k, (k ∉ Machine.Seen (Machine.crawler w)) ∧
       Machine.claimed w' = Machine.claimed w ++ [k] ∧
       Machine.Seen (Machine.crawler w') = {[k]} ∪ Machine.Seen (Machine.crawler w).
Proof.
  intros Hstep Hrobots.
  destruct Hstep as [w f early get f' c' spawned Hf Hcall
                    | w p1 p2 node o sent Hpool Hfetch
                    | w p1 p2 node o r sent Hpool Hfetch
                    | w p1 p2 r Hpool Hopen Hroom
                    | w p1 p2 q1 q2 nodes Hpool Hwait
                    | w p1 p2 node nodes Hpool
                    | w p1 p2 Hpool
                    | w r rs Hres ].
  - left. eapply machine_step_claimed; [done| |done]. congruence.
  - left. split; [|done]. unfold Machine.claimed, Machine.pending. simpl.
    rewrite Hpool, !bind_app. csimpl. solve_submseteq.
  - left. split; [|done]. unfold Machine.claimed, Machine.pending. simpl.
    rewrite Hpool, !bind_app. csimpl.
    apply Machine_fetch_result in Hfetch as (_ & Haddr & _).
    unfold Machine.result_key, Machine.key. rewrite Haddr. solve_submseteq.
  - left. split; [|done]. unfold Machine.claimed, Machine.pending. simpl.
    rewrite Hpool, !bind_app, omap_app. csimpl.
    destruct (Machine.result_key r); simpl; solve_submseteq.
  - left. split; [|done]. unfold Machine.claimed, Machine.pending. simpl.
    rewrite Hpool, !bind_app. csimpl.
    apply (f_equal (fun l => l ≫= Machine.goroutine_keys)) in Hwait.
    rewrite !bind_app in Hwait. csimpl in Hwait. rewrite Hwait. done.
  - destruct (merge_node_cases (Machine.crawler w) node) as [Hsame|(a & Ha & Hnew & Hmerge)].
    + left. unfold Machine.claimed, Machine.pending. simpl. rewrite Hsame.
      rewrite Hpool, !bind_app. csimpl. done.
    + right. exists (Full a). split; [done|].
      unfold Machine.claimed, Machine.pending. simpl. rewrite Hmerge. simpl.
      rewrite Hpool, !bind_app, omap_app. csimpl.
      unfold Machine.key at 3. rewrite Ha. simpl.
      rewrite <- !app_assoc. done.
  - left. split; [|done]. unfold Machine.claimed, Machine.pending. simpl.
    rewrite Hpool, !bind_app. csimpl. done.
  - left. split; [|done]. unfold Machine.claimed, Machine.pending. simpl.
    rewrite Hres, omap_app. simpl.
    destruct (Machine.result_key r); simpl; solve_submseteq.
Qed.

Lemma claims_unique_step (w w' : Machine.World) :
  Machine.claims_unique w -> Machine.fn w ≠ Some Machine.fnCheckRobots ->
  Machine.step w w' -> Machine.claims_unique w'.
Proof.
  intros [Hnodup Hseen] Hrobots Hstep.
  destruct (step_claimed w w' Hstep Hrobots) as [[Hsub Hs]|(k & Hk & Hc & Hs)].
  - split; [by eapply submseteq_NoDup|].
    intros k Hk. rewrite Hs. apply Hseen. by eapply elem_of_submseteq.
  - unfold Machine.claims_unique. rewrite Hc, Hs. split.
    + apply NoDup_app. split; [done|]. split; [|apply NoDup_singleton].
      intros x Hx ->%list_elem_of_singleton. by apply Hk, Hseen.
    + intros x [Hx|Hx]%elem_of_app.
      * apply elem_of_union_r. by apply Hseen.
      * apply list_elem_of_singleton in Hx as ->. apply elem_of_union_l.
        by apply elem_of_singleton.
Qed.

Lemma claims_unique_reachable (cfg : Config) (q : list Node) (c : Machine.Crawler)
    (w : Machine.World) :
  Machine.CrawlList cfg q = Some c ->
  NoDup (omap Machine.key q) ->
  rtc Machine.step (Machine.start c) w ->
  Machine.claims_unique w.
Proof.
  intros (Hq & Hnq & Hres & _ & _ & Hseen)%CrawlList_seeds_seen Hnodup Hrun.
  cut (Machine.claims_unique w ∧ Machine.head_safe w); [by intros [? _]|].
  revert w Hrun.
  apply (rtc_ind_r (R := Machine.step)
           (fun w => Machine.claims_unique w ∧ Machine.head_safe w)).
  - split; [|apply head_safe_start].
    unfold Machine.claims_unique, Machine.claimed, Machine.pending. simpl.
    rewrite Hq, Hnq, Hres. simpl. rewrite app_nil_r.
    split; [done|]. intros k. by rewrite Hseen.
  - intros w w' _ Hstep [Hu Hs]. split; [|by eapply head_safe_step].
    eapply claims_unique_step; [done| |done]. by destruct Hs.
Qed.

Lemma NoDup_omap_lookup {A B} (f : A -> option B) (l : list A) (i j : nat)
    (x y : A) (k : B) :
  NoDup (omap f l) -> l !! i = Some x -> l !! j = Some y ->
  f x = Some k -> f y = Some k -> i = j.
Proof.
  revert i j. induction l as [|z l IH]; intros i j Hnd Hi Hj Hx Hy; [done|].
  rewrite omap_cons_option_list in Hnd.
  destruct i as [|i], j as [|j]; simpl in *; simplify_eq.
  - done.
  - rewrite Hx in Hnd. simpl in Hnd. apply NoDup_cons in Hnd as [Hk _].
    destruct Hk. apply list_elem_of_omap. exists y. split; [|done].
    by eapply list_elem_of_lookup_2.
  - rewrite Hy in Hnd. simpl in Hnd. apply NoDup_cons in Hnd as [Hk _].
    destruct Hk. apply list_elem_of_omap. exists x. split; [|done].
    by eapply list_elem_of_lookup_2.
  - f_equal. apply IH; try done. apply NoDup_app in Hnd. by destruct Hnd as (_ & _ & ?).
Qed.

(** C4, amended. [CrawlList] puts every seed into the seen set before
    the machine starts; a merge appends an address to the next queue
    exactly when it marks it as seen, in one step under the lock, and
    only if it was not seen (both in the state machine and in the
    [data.Address] generation); so when no URL string is given twice
    among the seeds, no URL string is the address of more than one
    result that [Next] returns, whatever the interleaving of the state
    machine (a page that links back to a seed does not have the seed
    fetched again). *)
Theorem no_url_fetched_twice (cfg : Config) (q : list Node) (c : Machine.Crawler)
    (w : Machine.World) :
  Machine.CrawlList cfg q = Some c ->
  NoDup (omap Machine.key q) ->
  rtc Machine.step (Machine.start c) w ->
  (∀ v, v ∈ q -> ∃ a, NodeAddress v = Some a ∧ Full a ∈ Machine.Seen c) ∧
  (∀ c0 node,
     (Machine.nextqueue (Machine.merge_node c0 node) = Machine.nextqueue c0 ∧
      Machine.Seen (Machine.merge_node c0 node) = Machine.Seen c0) ∨
     ∃ a, NodeAddress node = Some a ∧ (Full a ∉ Machine.Seen c0) ∧
          Machine.nextqueue (Machine.merge_node c0 node) = Machine.nextqueue c0 ++ [node] ∧
          Machine.Seen (Machine.merge_node c0 node) = {[Full a]} ∪ Machine.Seen c0) ∧
  (∀ cfg' q' c', Frontier.CrawlList cfg' q' = Some c' ->
     ∀ a, a ∈ Frontier.queue c' -> Full a ∈ Frontier.seen c') ∧
  (∀ c0 link,
     Frontier.merge_link c0 link = c0 ∨
     ∃ a, LinkAddress link = Some a ∧ (Full a ∉ Frontier.seen c0) ∧
          Frontier.nextqueue (Frontier.merge_link c0 link) = Frontier.nextqueue c0 ++ [a] ∧
          Frontier.seen (Frontier.merge_link c0 link) = {[Full a]} ∪ Frontier.seen c0) ∧
  Machine.distinct_addresses (Machine.emitted w).
Proof.
  intros Hc Hnodup Hrun. split; [|split; [|split; [|split]]].
  - apply CrawlList_seeds_seen in Hc as (_ & _ & _ & _ & Hall & Hseen).
    intros v Hv. apply mapM_Some in Hall.
    apply list_elem_of_lookup in Hv as [i Hi].
    destruct (Forall2_lookup_l _ _ _ _ _ Hall Hi) as (k & Hk & Hkey).
    unfold Machine.key in Hkey. destruct (NodeAddress v) as [a|] eqn:Ha; [|done].
    exists a. split; [done|]. apply Hseen. apply list_elem_of_omap.
    exists v. split; [by eapply list_elem_of_lookup_2|].
    unfold Machine.key. by rewrite Ha.
  - intros c0 node.
    destruct (merge_node_cases c0 node) as [->|(a & Ha & Hnew & ->)]; [by left|].
    right. by exists a.
  - intros cfg' q' c' Hc'. by apply Frontier_CrawlList_seeds_seen in Hc' as [_ ?].
  - intros c0 link.
    destruct (merge_link_cases c0 link) as [->|(a & Ha & Hnew & Hq & Hs & _)]; [by left|].
    right. by exists a.
  - destruct (claims_unique_reachable cfg q c w Hc Hnodup Hrun) as [Hnd _].
    unfold Machine.claimed in Hnd. apply NoDup_app in Hnd as [Hnd _].
    intros i j r1 r2 a1 a2 Hi Hj Ha1 Ha2 Hfull.
    eapply (NoDup_omap_lookup Machine.result_key); [done..| |].
    + unfold Machine.result_key. by rewrite Ha1.
    + unfold Machine.result_key. by rewrite Ha2, Hfull.
Qed.

End ClaimFacts.

(** ** The claims on runs of the examples *)

Module Runs.
Import Examples.

Lemma after_reachable (schedule : list Machine.move) (c : Machine.Crawler) :
  is_Some (Machine.run schedule (Machine.start c)) ->
  rtc Machine.step (Machine.start c) (after schedule c).
Proof.
  unfold after. intros [w Hw]. rewrite Hw. simpl. by eapply run_reaches.
Qed.

Lemma CrawlList_crawler0 :
  Machine.CrawlList config0 [seed "http://h/"] = Some crawler0.
Proof. vm_compute. reflexivity. Qed.

Lemma CrawlList_crawler_twice :
  Machine.CrawlList config0 [seed "http://h/"; seed "http://h/"] = Some crawler_twice.
Proof. vm_compute. reflexivity. Qed.

(** C1. The results do not always come out in ascending order of
    depth: the wait group of the state machine counts the merges, and
    a fetch hands its links to its merge before it sends its result.
    In the schedule [race], with one seed at depth 0 and two
    connections, [Next] returns the result of depth 1 before the
    result of depth 0. *)
Theorem results_overtake_across_levels :
  Machine.CrawlList config0 [seed "http://h/"] = Some crawler0 ∧
  rtc Machine.step (Machine.start crawler0) (after race crawler0) ∧
  (Depth <$> Machine.emitted (after race crawler0)) = [1; 0] ∧
  ¬ Machine.ascending (Machine.emitted (after race crawler0)).
Proof.
  split; [apply CrawlList_crawler0|].
  split; [apply after_reachable; vm_compute; eauto|].
  split; [vm_compute; reflexivity|].
  intros Hasc.
  destruct (Machine.emitted (after race crawler0)) as [|r1 [|r2 rest]] eqn:He;
    [vm_compute in He; discriminate..|].
  specialize (Hasc 0%nat 1%nat r1 r2).
  assert (Depth r1 = 1 ∧ Depth r2 = 0) as [H1 H0].
  { vm_compute in He. injection He as <- <- _. by vm_compute. }
  rewrite H1, H0 in Hasc. specialize (Hasc ltac:(lia) eq_refl eq_refl). lia.
Qed.

(** C2. In the [data.Address] generation a negative [MaxDepth] does not
    lift the bound: [merge] returns before its loop whenever the depth
    of the crawler is not below [MaxDepth], so with [MaxDepth = -1] the
    link found on the seed is dropped. In the same configuration the
    state machine enqueues the link, and its [crawlStart] hands an
    entry of any depth on to [crawlDo]. *)
Theorem merge_drops_links_when_unbounded :
  MaxDepth config0 = -1 ∧
  Frontier.merge frontier0 [link_x] = frontier0 ∧
  Frontier.nextqueue (Frontier.merge frontier0 [link_x]) = [] ∧
  Machine.nextqueue (Machine.merge_node crawler0 node_x) = [node_x] ∧
  Machine.crawlStart false (Machine.set_queues crawler0 [node_x] []) =
    Machine.Return (Some Machine.fnDo) (Machine.set_queues crawler0 [node_x] []) [].
Proof. repeat split; vm_compute; reflexivity. Qed.

(** C3. A URL that robots.txt denies is fetched all the same by the
    state machine. [crawlStart] hands the entry to [crawlDo], which
    spawns its fetch; no state function hands over to
    [crawlCheckRobots], so the cache stays empty and the only result is
    the fetched page. [crawlCheckRobots] itself, called with rules in
    the cache that deny the entry, sends the synthetic result and then
    returns [crawlDo] as well. The [work] loop of crawler.go sends the
    synthetic result and goes on to the next node. *)
Theorem robots_denied_entry_is_fetched :
  Machine.CrawlList config0 [seed "http://h/private"] = Some crawler_private ∧
  rtc Machine.step (Machine.start crawler_private) (after private_run crawler_private) ∧
  Status <$> Machine.emitted (after private_run crawler_private) = ["200 OK"] ∧
  Machine.robots (Machine.crawler (after private_run crawler_private)) = ∅ ∧
  Robots.allowed (Machine.robots crawler_denied) (address "http://h/private") "X" = false ∧
  Machine.crawlStart false crawler_denied =
    Machine.Return (Some Machine.fnDo) crawler_denied [] ∧
  Machine.crawlCheckRobots no_robots crawler_denied =
    Machine.Return (Some Machine.fnDo)
      (Machine.send_result crawler_denied
         (blocked_result (Some (address "http://h/private")) 0)) [] ∧
  Machine.crawlDo crawler_denied =
    Machine.Return (Some Machine.fnNext) (Machine.acquire crawler_denied)
      [Machine.Fetching (seed "http://h/private"); Machine.Awaiting] ∧
  Work.work_node no_robots work_denied (seed "http://h/private") =
    Some (work_denied,
          Work.Blocked (blocked_result (Some (address "http://h/private")) 0)).
Proof.
  split; [vm_compute; reflexivity|].
  split; [apply after_reachable; vm_compute; eauto|].
  repeat split; vm_compute; reflexivity.
Qed.

(** C4, as stated, fails: a seed list that names a URL twice has it
    fetched twice, and [Next] returns two results with that address. *)
Lemma duplicate_seed_fetched_twice :
  Machine.CrawlList config0 [seed "http://h/"; seed "http://h/"] = Some crawler_twice ∧
  rtc Machine.step (Machine.start crawler_twice) (after twice crawler_twice) ∧
  ¬ Machine.distinct_addresses (Machine.emitted (after twice crawler_twice)).
Proof.
  split; [apply CrawlList_crawler_twice|].
  split; [apply after_reachable; vm_compute; eauto|].
  intros Hd.
  destruct (Machine.emitted (after twice crawler_twice)) as [|r1 [|r2 rest]] eqn:He;
    [vm_compute in He; discriminate..|].
  specialize (Hd 0%nat 1%nat r1 r2 (address "http://h/") (address "http://h/")).
  assert (ResultAddress r1 = Some (address "http://h/") ∧
          ResultAddress r2 = Some (address "http://h/")) as [H1 H2].
  { vm_compute in He. injection He as <- <- _. by vm_compute. }
  specialize (Hd eq_refl eq_refl H1 H2 eq_refl). discriminate.
Qed.

Lemma no_url_fetched_twice_witness :
  Machine.CrawlList config0 [seed "http://h/"] = Some crawler0 ∧
  Machine.distinct_addresses (Machine.emitted (after race crawler0)).
Proof.
  split; [apply CrawlList_crawler0|].
  refine (proj2 (proj2 (proj2 (proj2
    (no_url_fetched_twice config0 [seed "http://h/"] crawler0 (after race crawler0) _ _ _))))).
  - vm_compute. reflexivity.
  - vm_compute. apply NoDup_singleton.
  - apply after_reachable. vm_compute. eauto.
Defined.

(** crawler.go does not put its seed into the seen set: the page that
    links back to it has it fetched a second time. *)
Lemma Work_seed_fetched_twice :
  Work.Crawl config0 = Some work0 ∧
  (ResultAddress <$> (from_option Work.results [] (Work.crawl 5 robots_open loop_site work0))) =
    [Some (address "http://h/"); Some (address "http://h/")].
Proof. split; vm_compute; reflexivity. Qed.

(** C7. [getLinks] reads [rel] off the node it was called on, not off
    the anchor: the anchor of [page_nofollow] carries [rel="nofollow"]
    and its link comes out with the flag unset, so that the merge
    enqueues it although [RespectNofollow] is set. *)
Theorem getLinks_reads_rel_of_root :
  scrape.GetAttribute "rel" <$> scrape.GetNodesByTagName "a" page_nofollow = ["nofollow"] ∧
  result.getLinks (AddrURL (address "http://h/")) page_nofollow = Some [link_x] ∧
  Nofollow link_x = false ∧
  RespectNofollow (Machine.config crawler0) = true ∧
  Machine.nextqueue (Machine.merge_node crawler0 node_x) = [node_x].
Proof. repeat split; vm_compute; reflexivity. Qed.

(** C8. [addRobots] of crawler.go does not look at the status: a
    robots.txt that answers 500 leaves in the cache what
    [FromResponse] makes of the answer, not nil, and the queries that
    follow go through it. The later generations store nil. *)
Theorem addRobots_work_caches_non200 :
  Robots.addRobots_work robots_500 ∅ "http://h/private" = {["h" := Some ["/private"]]} ∧
  Robots.allowed (Robots.addRobots_work robots_500 ∅ "http://h/private")
    (address "http://h/private") "X" = false ∧
  Work.work_node robots_500 (Work.set_queue work0 [seed "http://h/private"])
    (seed "http://h/private") =
    Some (Work.set_robots (Work.set_queue work0 [seed "http://h/private"])
            {["h" := Some ["/private"]]},
          Work.Blocked (blocked_result (Some (address "http://h/private")) 0)) ∧
  Robots.addRobots robots_500 ∅ "http://h/private" = {["h" := None]}.
Proof. repeat split; vm_compute; reflexivity. Qed.




Lemma head_peek_in_bounds_witness :
  Machine.fn (after race crawler0) = Some Machine.fnNext ∧
  Machine.queue (Machine.crawler (after race crawler0)) ≠ [].
Proof.
  split; [vm_compute; reflexivity|].
  apply (head_peek_in_bounds crawler0 (after race crawler0) Machine.fnNext).
  - apply after_reachable. vm_compute. eauto.
  - vm_compute. reflexivity.
  - exact I.
Defined.

End Runs.

(** * Further properties of the code *)

(** ** Patterns and the filter *)

Section PatternFacts.
Context {RL : RegexpLib}.

(** X1. [preparePattern] returns the compiled patterns in the order of the
    strings, one for each, and panics exactly when one of the strings
    does not compile. *)
Theorem preparePattern_all_or_nothing (patterns : list string) :
  (∀ compiled, URLFilter.preparePattern patterns = Some compiled ↔
     Forall2 (fun s r => Compile s = Some r) patterns compiled) ∧
  (URLFilter.preparePattern patterns = None ↔
     ∃ s, s ∈ patterns ∧ Compile s = None).
Proof.
  induction patterns as [|s rest [IHs IHn]]; simpl.
  - split.
    + intros compiled. split.
      * intros [= <-]. constructor.
      * intros ->%Forall2_nil_inv_l. done.
    + split; [done|]. intros (s & Hs & _). by apply elem_of_nil in Hs.
  - destruct (Compile s) as [r|] eqn:Hs.
    + destruct (URLFilter.preparePattern rest) as [rs|] eqn:Hrest.
      * split.
        -- intros compiled. split.
           ++ intros [= <-]. constructor; [done|]. by apply IHs.
           ++ intros (r' & rs' & Hr & Hrs & ->)%Forall2_cons_inv_l.
              apply IHs in Hrs. congruence.
        -- split; [done|]. intros (s' & Hin & Hnone).
           apply elem_of_cons in Hin as [->|Hin]; [congruence|].
           assert (@None (list Regexp) = Some rs) as Habs; [|done].
           symmetry. apply IHn. eauto.
      * split.
        -- intros compiled. split; [done|].
           intros (r' & rs' & Hr & Hrs & ->)%Forall2_cons_inv_l.
           by apply IHs in Hrs.
        -- split; [|done]. intros _.
           destruct (proj1 IHn eq_refl) as (s' & Hin & Hnone).
           exists s'. split; [by right|done].
    + split.
      * intros compiled. split; [done|].
        intros (r' & rs' & Hr & Hrs & ->)%Forall2_cons_inv_l. congruence.
      * split; [|done]. intros _. exists s. split; [left|done].
Qed.

Lemma any_matches_app (ps qs : list Regexp) (u : string) :
  URLFilter.any_matches (ps ++ qs) u ↔
  URLFilter.any_matches ps u ∨ URLFilter.any_matches qs u.
Proof.
  unfold URLFilter.any_matches. split.
  - intros (p & [Hp|Hp]%elem_of_app & Hm); [left|right]; eauto.
  - intros [(p & Hp & Hm)|(p & Hp & Hm)]; exists p; split; try done;
      apply elem_of_app; eauto.
Qed.

Lemma willCrawl_true (inc exc : list Regexp) (u : string) :
  URLFilter.willCrawl inc exc u = true ↔
  ¬ URLFilter.any_matches exc u ∧ (URLFilter.any_matches inc u ∨ inc = []).
Proof.
  unfold URLFilter.willCrawl.
  destruct (URLFilter.range_matches exc u) eqn:He.
  { apply range_matches_spec in He. split; [done|]. intros [Hn _]. by destruct Hn. }
  apply range_matches_none in He.
  destruct (URLFilter.range_matches inc u) eqn:Hi.
  { apply range_matches_spec in Hi. split; [|done]. intros _. split; [done|by left]. }
  apply range_matches_none in Hi.
  case_bool_decide as Hlen.
  - split; [done|]. intros [_ [?| ->]]; [done|]. simpl in Hlen. lia.
  - split; [|done]. intros _. split; [done|]. right.
    destruct inc; [done|]. simpl in Hlen. lia.
Qed.

(** X2. The verdict does not depend on the order in which the patterns are
    listed, although each loop stops at its first hit. *)
Theorem willCrawl_order_irrelevant (inc inc' exc exc' : list Regexp) (u : string) :
  inc ≡ₚ inc' -> exc ≡ₚ exc' ->
  URLFilter.willCrawl inc exc u = URLFilter.willCrawl inc' exc' u.
Proof.
  intros Hi He.
  assert (∀ ps qs : list Regexp, ps ≡ₚ qs ->
            URLFilter.any_matches ps u -> URLFilter.any_matches qs u) as Hperm.
  { intros ps qs Hp (p & Hin & Hm). exists p. split; [by rewrite <- Hp|done]. }
  assert (inc = [] ↔ inc' = []) as Hnil.
  { split; intros ->; [by apply Permutation_nil_l in Hi
                      | symmetry in Hi; by apply Permutation_nil_l in Hi]. }
  destruct (URLFilter.willCrawl inc exc u) eqn:H1;
    destruct (URLFilter.willCrawl inc' exc' u) eqn:H2; try done.
  - apply willCrawl_true in H1 as [Hne Hyes].
    assert (URLFilter.willCrawl inc' exc' u = true) as Habs; [|congruence].
    apply willCrawl_true. split.
    + intros Hm. apply Hne. by eapply Hperm.
    + destruct Hyes as [Hm|Hm]; [left; by eapply Hperm|right; by apply Hnil].
  - apply willCrawl_true in H2 as [Hne Hyes].
    assert (URLFilter.willCrawl inc exc u = true) as Habs; [|congruence].
    apply willCrawl_true. split.
    + intros Hm. apply Hne. by eapply Hperm.
    + destruct Hyes as [Hm|Hm]; [left; by eapply Hperm|right; by apply Hnil].
Qed.

(** X3. Exclude patterns only ever take URLs away: what passes a longer
    exclude list passes every part of it; and include patterns added to
    a list that is not empty only ever add URLs. *)
Theorem willCrawl_monotone (inc inc' exc exc' : list Regexp) (u : string) :
  URLFilter.willCrawl inc (exc ++ exc') u = true ->
  URLFilter.willCrawl inc exc u = true ∧
  URLFilter.willCrawl inc exc' u = true ∧
  (inc ≠ [] -> URLFilter.willCrawl (inc ++ inc') (exc ++ exc') u = true).
Proof.
  intros [Hne Hyes]%willCrawl_true.
  rewrite any_matches_app in Hne.
  split; [|split].
  - apply willCrawl_true. split; [|done]. intros Hm. apply Hne. by left.
  - apply willCrawl_true. split; [|done]. intros Hm. apply Hne. by right.
  - intros Hnil. apply willCrawl_true. split.
    + by rewrite any_matches_app.
    + left. apply any_matches_app. destruct Hyes; [by left|done].
Qed.

End PatternFacts.

(** ** The robots cache, further *)

Section RobotsMore.
Context {UL : UrlLib} {BL : RobotsLib}.

(** X4. A matcher is in the cache after [addRobots] only if it was there
    before, or robots.txt of that host answered 200 with a body that
    parsed to it; everything else leaves nil. *)
Theorem addRobots_matcher_only_from_200 (get : string -> Robots.RobotsFetch)
    (robots : gmap string (option RobotsData)) (u host : string) (r : RobotsData) :
  Robots.addRobots get robots u !! host = Some (Some r) ->
  robots !! host = Some (Some r) ∨
  ∃ url body, url_Parse u = Some url ∧ UHost url = host ∧
              get (Robots.robotsPath url) = Robots.RobotsGot 200 body ∧
              FromResponse 200 body = Some r.
Proof.
  unfold Robots.addRobots. destruct (url_Parse u) as [url|] eqn:Hu; [|by left].
  destruct (decide (UHost url = host)) as [<-|Hne].
  - destruct (get (Robots.robotsPath url)) as [|status body] eqn:Hget.
    { by rewrite lookup_insert_eq. }
    destruct (decide (status ≠ 200)) as [|Hs]; [by rewrite lookup_insert_eq|].
    assert (status = 200) as -> by lia.
    destruct (FromResponse 200 body) as [r'|] eqn:Hr; [|by rewrite lookup_insert_eq].
    rewrite lookup_insert_eq. intros [= <-]. right. by exists url, body.
  - intros Hl. left. revert Hl.
    destruct (get (Robots.robotsPath url)) as [|status body];
      [|destruct (decide (status ≠ 200)); [|destruct (FromResponse status body)]];
      by rewrite !lookup_insert_ne.
Qed.

(** X5. [addRobots] writes the entry of one host, the host of the URL it
    is given; the entries of all other hosts stay as they are, in both
    versions of the function, and a URL that does not parse changes
    nothing. *)
Theorem addRobots_touches_one_host (get : string -> Robots.RobotsFetch)
    (robots : gmap string (option RobotsData)) (u host : string) :
  (∀ url, url_Parse u = Some url -> UHost url ≠ host) ->
  Robots.addRobots get robots u !! host = robots !! host ∧
  Robots.addRobots_work get robots u !! host = robots !! host.
Proof.
  intros Hother. unfold Robots.addRobots, Robots.addRobots_work.
  destruct (url_Parse u) as [url|] eqn:Hu; [|done].
  specialize (Hother url eq_refl).
  destruct (get (Robots.robotsPath url)) as [|status body];
    [|destruct (decide (status ≠ 200)); [|destruct (FromResponse status body)]];
    by rewrite !lookup_insert_ne.
Qed.

(** X6. Once the crawler has looked up the robots.txt of the host of an
    address, looking it up again changes nothing, whatever the host
    would answer the second time: the cache is not refreshed. The host
    under which [addRobots] files the entry is the one it parses out of
    the string form, so this needs the two to agree. *)
Theorem ensure_not_refreshed (get get' : string -> Robots.RobotsFetch)
    (robots : gmap string (option RobotsData)) (a : Address) (url : URL) :
  url_Parse (Full a) = Some url -> UHost url = Host a ->
  is_Some (Robots.ensure (Robots.addRobots get) robots a !! Host a) ∧
  Robots.ensure (Robots.addRobots get') (Robots.ensure (Robots.addRobots get) robots a) a =
  Robots.ensure (Robots.addRobots get) robots a.
Proof.
  intros Hu Hhost.
  assert (is_Some (Robots.ensure (Robots.addRobots get) robots a !! Host a)) as Hsome.
  { unfold Robots.ensure. destruct (robots !! Host a) as [m|] eqn:Hm.
    - rewrite Hm. eauto.
    - unfold Robots.addRobots. rewrite Hu, Hhost.
      destruct (get (Robots.robotsPath url)) as [|status body];
        [|destruct (decide (status ≠ 200)); [|destruct (FromResponse status body)]];
        rewrite ?lookup_insert_eq; eauto. }
  split; [done|]. destruct Hsome as [m Hm].
  unfold Robots.ensure at 1. by rewrite Hm.
Qed.

(** A URL whose string form does not parse is never filed: [ensure]
    leaves the cache as it is, so the host stays unknown. *)
Lemma ensure_unparsed (get : string -> Robots.RobotsFetch)
    (robots : gmap string (option RobotsData)) (a : Address) :
  url_Parse (Full a) = None ->
  Robots.ensure (Robots.addRobots get) robots a = robots.
Proof.
  intros Hu. unfold Robots.ensure, Robots.addRobots.
  destruct (robots !! Host a); [done|]. by rewrite Hu.
Qed.

End RobotsMore.

(** ** result.go, further *)

Section ResultMore.
Context {UL : UrlLib}.

(** X7. [getLinks] panics exactly when the document has an anchor whose
    href [url.Parse] rejects; otherwise it returns a list. *)
Theorem getLinks_panics_iff_bad_href (base : URL) (n : HtmlNode) :
  result.getLinks base n = None ↔
  ∃ a, a ∈ scrape.GetNodesByTagName "a" n ∧
       url_Parse (scrape.GetAttribute "href" a) = None.
Proof.
  unfold result.getLinks.
  induction (scrape.GetNodesByTagName "a" n) as [|a rest IH]; simpl.
  - split; [done|]. intros (a & Ha & _). by apply elem_of_nil in Ha.
  - destruct (url_Parse (scrape.GetAttribute "href" a)) as [h|] eqn:Hh.
    + destruct (result.getLinks_range base n rest) as [ls|] eqn:Hrest; simpl.
      * split; [done|]. intros (a' & Ha' & Hnone).
        apply elem_of_cons in Ha' as [->|Ha']; [congruence|].
        assert (@None (list Link) = Some ls) as Habs; [|done].
        symmetry. apply IH. eauto.
      * split; [|done]. intros _. destruct (proj1 IH eq_refl) as (a' & Ha' & Hnone).
        exists a'. split; [by right|done].
    + split; [|done]. intros _. exists a. split; [left|done].
Qed.

(** X8. The hreflang entries are read off the [link rel="alternate"]
    elements in document order; an element without href gives none, so
    no entry has an empty href; and the hrefs are taken as written, not
    resolved: the base plays no part. *)
Theorem getHreflang_hrefs (base base' : URL) (n : HtmlNode) :
  Forall (fun h => Href h ≠ "") (result.getHreflang base n) ∧
  result.getHreflang base n = result.getHreflang base' n ∧
  Href <$> result.getHreflang base n =
    filter (fun s => s ≠ "")
      (scrape.GetAttribute "href" <$> scrape.QueryNodes "link" [("rel", "alternate")] n).
Proof.
  unfold result.getHreflang. split; [|split; [done|]].
  - apply Forall_forall. intros h (l & _ & Hl)%list_elem_of_omap.
    destruct (decide (scrape.GetAttribute "href" l ≠ "")); [|done].
    by injection Hl as <-.
  - induction (scrape.QueryNodes "link" [("rel", "alternate")] n) as [|l ls IH]; [done|].
    rewrite fmap_cons, filter_cons, omap_cons_option_list.
    destruct (decide (scrape.GetAttribute "href" l ≠ "")); simpl; by rewrite <- IH.
Qed.

End ResultMore.

(** ** crawler.go, further *)

Section WorkMore.
Context {RL : RegexpLib} {UL : UrlLib} {BL : RobotsLib}.

Lemma work_node_cases (get : string -> Robots.RobotsFetch) (c c' : Work.Crawler)
    (node : Node) (d : Work.decision) :
  Work.work_node get c node = Some (c', d) ->
  Work.set_robots c (Work.robots c') = c' ∧
  match d with
  | Work.Skipped =>
      c' = c ∧
      ((NodeDepth node > MaxDepth (Work.config c) ∧ MaxDepth (Work.config c) >= 0) ∨
       ∃ a, NodeAddress node = Some a ∧ Work.WillCrawl c (Full a) = false)
  | Work.Blocked r =>
      r = set_Status (MakeResult (NodeAddress node) (NodeDepth node))
            "Blocked by robots.txt" ∧
      ∃ a, NodeAddress node = Some a ∧
           Robots.allowed (Work.robots c') a (RobotsUserAgent (Work.config c)) = false
  | Work.Dispatched =>
      ¬ (NodeDepth node > MaxDepth (Work.config c) ∧ MaxDepth (Work.config c) >= 0) ∧
      ∃ a, NodeAddress node = Some a ∧ Work.WillCrawl c (Full a) = true ∧
           Robots.allowed (Work.robots c') a (RobotsUserAgent (Work.config c)) = true
  end.
Proof.
  unfold Work.work_node.
  destruct (decide _) as [Hdeep|Hdeep].
  { intros [= <- <-]. split; [by destruct c|]. split; [done|by left]. }
  destruct (NodeAddress node) as [a|] eqn:Ha; [|done]. simpl.
  destruct (Work.WillCrawl c (Full a)) eqn:Hw; simpl.
  2:{ intros [= <- <-]. split; [by destruct c|]. split; [done|]. right. eauto. }
  destruct (decide (Robots.matcher (Work.robots c) (Host a) = None)).
  - destruct (Robots.allowed _ a _) eqn:Hallow; simpl; intros [= <- <-]; simpl;
      (split; [done|]); eauto 10.
  - destruct (Robots.allowed _ a _) eqn:Hallow; simpl; intros [= <- <-];
      (split; [by destruct c|]); eauto 10.
Qed.

(** X9. What the [switch] of [work] decides and what it leaves alone. A
    node is skipped without a trace only for its depth or the filter; a
    blocked node gets a result that carries its address, its depth and
    the status text and nothing else; a fetch is dispatched only for a
    node within the depth bound, accepted by the filter and allowed by
    the robots cache as it is after the lookup. Nothing but the robots
    cache changes. *)
Theorem work_node_decides (get : string -> Robots.RobotsFetch) (c c' : Work.Crawler)
    (node : Node) (d : Work.decision) :
  Work.work_node get c node = Some (c', d) ->
  Work.set_robots c (Work.robots c') = c' ∧
  match d with
  | Work.Skipped =>
      c' = c ∧
      ((NodeDepth node > MaxDepth (Work.config c) ∧ MaxDepth (Work.config c) >= 0) ∨
       ∃ a, NodeAddress node = Some a ∧ Work.WillCrawl c (Full a) = false)
  | Work.Blocked r =>
      r = set_Status (MakeResult (NodeAddress node) (NodeDepth node))
            "Blocked by robots.txt" ∧
      ∃ a, NodeAddress node = Some a ∧
           Robots.allowed (Work.robots c') a (RobotsUserAgent (Work.config c)) = false
  | Work.Dispatched =>
      ¬ (NodeDepth node > MaxDepth (Work.config c) ∧ MaxDepth (Work.config c) >= 0) ∧
      ∃ a, NodeAddress node = Some a ∧ Work.WillCrawl c (Full a) = true ∧
           Robots.allowed (Work.robots c') a (RobotsUserAgent (Work.config c)) = true
  end.
Proof. exact (work_node_cases get c c' node d). Qed.

Lemma Work_merge_node_inv (c0 c : Work.Crawler) (all : list Node) (node : Node) :
  node ∈ all ->
  (Work.Seen c0 ⊆ Work.Seen c ∧
   NoDup (omap Machine.key (Work.queue c)) ∧
   Work.results c = Work.results c0 ∧ Work.config c = Work.config c0 ∧
   ∀ n, n ∈ Work.queue c ->
     n ∈ all ∧ ¬ (NodeNofollow n = true ∧ RespectNofollow (Work.config c0) = true) ∧
     ∃ a, NodeAddress n = Some a ∧ (Full a ∉ Work.Seen c0) ∧ Full a ∈ Work.Seen c) ->
  Work.Seen c0 ⊆ Work.Seen (Work.merge_node c node) ∧
  NoDup (omap Machine.key (Work.queue (Work.merge_node c node))) ∧
  Work.results (Work.merge_node c node) = Work.results c0 ∧
  Work.config (Work.merge_node c node) = Work.config c0 ∧
  ∀ n, n ∈ Work.queue (Work.merge_node c node) ->
    n ∈ all ∧ ¬ (NodeNofollow n = true ∧ RespectNofollow (Work.config c0) = true) ∧
    ∃ a, NodeAddress n = Some a ∧ (Full a ∉ Work.Seen c0) ∧
         Full a ∈ Work.Seen (Work.merge_node c node).
Proof.
  intros Hall (Hseen & Hnd & Hres & Hcfg & Hq). unfold Work.merge_node.
  destruct (NodeAddress node) as [a|] eqn:Ha; [|done].
  destruct (decide (Full a ∈ Work.Seen c)) as [|Hnew]; [done|].
  destruct (NodeNofollow node && RespectNofollow (Work.config c)) eqn:Hnf; [done|].
  simpl. split; [|split; [|split; [done|split; [done|]]]].
  - intros k Hk. apply elem_of_union_r. by apply Hseen.
  - rewrite omap_app. simpl. unfold Machine.key at 2. rewrite Ha. simpl.
    apply NoDup_app. split; [done|]. split; [|apply NoDup_singleton].
    intros k (n & Hn & Hk)%list_elem_of_omap ->%list_elem_of_singleton.
    destruct (Hq n Hn) as (_ & _ & a' & Ha' & _ & Hin).
    unfold Machine.key in Hk. rewrite Ha' in Hk. simpl in Hk.
    injection Hk as Hk. by rewrite Hk in Hin.
  - intros n [Hn|Hn]%elem_of_app.
    + destruct (Hq n Hn) as (? & ? & a' & ? & ? & ?).
      split; [done|]. split; [done|]. exists a'.
      split; [done|]. split; [done|]. by apply elem_of_union_r.
    + apply list_elem_of_singleton in Hn as ->. split; [done|]. split.
      * rewrite <- Hcfg. intros [H1 H2]. by rewrite H1, H2 in Hnf.
      * exists a. split; [done|]. split.
        -- intros Hold. by apply Hnew, Hseen.
        -- apply elem_of_union_l. by apply elem_of_singleton.
Qed.

Lemma Work_merge_inv (c : Work.Crawler) (batches : list (list Node)) :
  Work.Seen c ⊆ Work.Seen (Work.merge c batches) ∧
  NoDup (omap Machine.key (Work.queue (Work.merge c batches))) ∧
  Work.results (Work.merge c batches) = Work.results c ∧
  Work.config (Work.merge c batches) = Work.config c ∧
  ∀ n, n ∈ Work.queue (Work.merge c batches) ->
    n ∈ concat batches ∧
    ¬ (NodeNofollow n = true ∧ RespectNofollow (Work.config c) = true) ∧
    ∃ a, NodeAddress n = Some a ∧ (Full a ∉ Work.Seen c) ∧
         Full a ∈ Work.Seen (Work.merge c batches).
Proof.
  unfold Work.merge.
  assert (∀ (nodes : list Node) (c1 : Work.Crawler) (P : Work.Crawler -> Prop),
            (∀ c2 n, n ∈ nodes -> P c2 -> P (Work.merge_node c2 n)) ->
            P c1 -> P (foldl Work.merge_node c1 nodes)) as Hfold.
  { induction nodes as [|n nodes IH]; intros c1 P Hstep Hc1; [done|]. simpl.
    apply IH; [|apply Hstep; [left|done]].
    intros c2 n' Hn'. apply Hstep. by right. }
  assert (∀ (bs : list (list Node)) (c1 : Work.Crawler) (P : Work.Crawler -> Prop),
            (∀ c2 n, n ∈ concat bs -> P c2 -> P (Work.merge_node c2 n)) ->
            P c1 -> P (foldl (foldl Work.merge_node) c1 bs)) as Hfolds.
  { induction bs as [|b bs IH]; intros c1 P Hstep Hc1; [done|]. simpl.
    apply IH.
    - intros c2 n Hn. apply Hstep. simpl. apply elem_of_app. by right.
    - apply Hfold; [|done]. intros c2 n Hn. apply Hstep. simpl.
      apply elem_of_app. by left. }
  apply (Hfolds batches (Work.set_queue c [])
           (fun c1 =>
              Work.Seen c ⊆ Work.Seen c1 ∧
              NoDup (omap Machine.key (Work.queue c1)) ∧
              Work.results c1 = Work.results c ∧ Work.config c1 = Work.config c ∧
              ∀ n, n ∈ Work.queue c1 ->
                n ∈ concat batches ∧
                ¬ (NodeNofollow n = true ∧ RespectNofollow (Work.config c) = true) ∧
                ∃ a, NodeAddress n = Some a ∧ (Full a ∉ Work.Seen c) ∧
                     Full a ∈ Work.Seen c1)).
  - intros c2 n Hn Hc2. by apply (Work_merge_node_inv c c2 (concat batches) n).
  - simpl. split; [done|]. split; [constructor|]. split; [done|]. split; [done|].
    intros n Hn. by apply elem_of_nil in Hn.
Qed.

(** X10. After [merge] the queue holds only nodes the fetchers sent, each
    with an address that had not been seen before the merge and is seen
    after it, no URL string twice, and no nofollow node when
    [RespectNofollow] is set; the old queue is gone, the seen set has
    only grown and the results are untouched. *)
Theorem Work_merge_fresh (c : Work.Crawler) (batches : list (list Node)) :
  Work.Seen c ⊆ Work.Seen (Work.merge c batches) ∧
  NoDup (omap Machine.key (Work.queue (Work.merge c batches))) ∧
  Work.results (Work.merge c batches) = Work.results c ∧
  Work.config (Work.merge c batches) = Work.config c ∧
  ∀ n, n ∈ Work.queue (Work.merge c batches) ->
    n ∈ concat batches ∧
    ¬ (NodeNofollow n = true ∧ RespectNofollow (Work.config c) = true) ∧
    ∃ a, NodeAddress n = Some a ∧ (Full a ∉ Work.Seen c) ∧
         Full a ∈ Work.Seen (Work.merge c batches).
Proof. exact (Work_merge_inv c batches). Qed.

Lemma ascending_snoc (rs : list Result) (r : Result) :
  Machine.ascending rs -> Forall (fun r' => Depth r' <= Depth r) rs ->
  Machine.ascending (rs ++ [r]).
Proof.
  intros Hasc Hle i j r1 r2 Hij Hi Hj.
  destruct (decide (j < length rs)%nat) as [Hlt|Hge].
  - rewrite lookup_app_l in Hi, Hj by lia. exact (Hasc i j r1 r2 Hij Hi Hj).
  - rewrite lookup_app_r in Hj by lia.
    destruct (j - length rs)%nat as [|k] eqn:Hk; [|done]. injection Hj as <-.
    rewrite lookup_app_l in Hi by lia.
    rewrite Forall_forall in Hle. apply Hle. by eapply list_elem_of_lookup_2.
Qed.

Lemma Work_fetch_effect (node : Node) (o : FetchOutcome) :
  match Work.fetch node o with
  | Fetched r sent =>
      Depth r = NodeDepth node ∧ ResultAddress r = NodeAddress node ∧
      Forall (fun n => NodeDepth n = NodeDepth node + 1) sent
  | Dropped sent => sent = []
  | Panicked => True
  end.
Proof.
  unfold Work.fetch. destruct (NodeAddress node) as [a|] eqn:Ha; [|done].
  destruct o as [| |resp]; try done.
  destruct (RespDoc resp) as [tree|]; [|done].
  destruct (result.Hydrate _ resp tree) as [hydrated|] eqn:Hh; [|done].
  apply Hydrate_keeps in Hh as (Hd & Haddr & _). simpl in *.
  split; [done|]. split; [congruence|].
  unfold linksToNodes. apply Forall_fmap, Forall_true. done.
Qed.

Lemma work_range_level (get : string -> Robots.RobotsFetch) (web : string -> FetchOutcome)
    (d : Z) (nodes : list Node) (c c' : Work.Crawler) (batches : list (list Node)) :
  Forall (fun n => NodeDepth n = d) nodes ->
  Forall (fun r => Depth r <= d) (Work.results c) ->
  Machine.ascending (Work.results c) ->
  Work.work_range get web c nodes = Some (c', batches) ->
  Forall (fun r => Depth r <= d) (Work.results c') ∧
  Machine.ascending (Work.results c') ∧
  Work.config c' = Work.config c ∧
  Forall (fun n => NodeDepth n = d + 1) (concat batches).
Proof.
  intros Hnodes. revert c c' batches.
  induction Hnodes as [|node rest Hd _ IH]; intros c c' batches Hle Hasc; simpl.
  { intros [= <- <-]. by repeat split. }
  destruct (Work.work_node get c node) as [[c1 dec]|] eqn:Hnode; [|done]. simpl.
  apply work_node_cases in Hnode as [Hc1 Hdec].
  assert (Work.results c1 = Work.results c ∧ Work.config c1 = Work.config c)
    as [Hres Hcfg] by (by rewrite <- Hc1).
  assert (∀ r, Depth r = d ->
            Forall (fun r' => Depth r' <= d) (Work.results (Work.send_result c1 r)) ∧
            Machine.ascending (Work.results (Work.send_result c1 r))) as Hsend.
  { intros r Hr. simpl. rewrite Hres. split.
    - apply Forall_app. split; [done|]. apply Forall_singleton. lia.
    - apply ascending_snoc; [done|]. by rewrite Hr. }
  destruct dec as [|r|].
  - intros Hrest. apply IH in Hrest as (? & ? & ? & ?); rewrite ?Hres; try done.
    repeat split; try done. congruence.
  - destruct Hdec as [-> _]. intros Hrest.
    destruct (Hsend (set_Status (MakeResult (NodeAddress node) (NodeDepth node))
                       "Blocked by robots.txt") Hd) as [Hle' Hasc'].
    apply IH in Hrest as (? & ? & ? & ?); try done.
    repeat split; try done. simpl in *. congruence.
  - destruct (NodeAddress node) as [a|] eqn:Ha; [|done]. simpl.
    pose proof (Work_fetch_effect node (web (Full a))) as Heff.
    destruct (Work.fetch node (web (Full a))) as [sent|r sent|]; [| |done].
    + subst sent.
      destruct (Work.work_range get web c1 rest) as [[c2 bs]|] eqn:Hrest; [|done].
      simpl. intros [= <- <-].
      apply IH in Hrest as (? & ? & ? & ?); rewrite ?Hres; try done.
      repeat split; try done. congruence.
    + destruct Heff as (Hr & _ & Hsent).
      destruct (Work.work_range get web (Work.send_result c1 r) rest)
        as [[c2 bs]|] eqn:Hrest; [|done].
      simpl. intros [= <- <-].
      destruct (Hsend r ltac:(congruence)) as [Hle' Hasc'].
      apply IH in Hrest as (? & ? & ? & ?); try done.
      repeat split; try done; [simpl in *; congruence|].
      apply Forall_app. split; [|done].
      eapply Forall_impl; [exact Hsent|]. intros n Hn. simpl in Hn. lia.
Qed.

(** X11. crawler.go sends its results in ascending order of depth: [work]
    waits for the fetchers of a level before it merges, a fetcher sends
    its result before it is done, and every node the merge enqueues is
    one level below the node it was found on. [Work.work_range] lets
    the fetchers of a level answer in the order they were spawned; the
    results of a level all have its depth, so their order among
    themselves plays no part here. *)
Theorem Work_results_ascending (cfg : Config) (get : string -> Robots.RobotsFetch)
    (web : string -> FetchOutcome) (fuel : nat) (c c' : Work.Crawler) :
  Work.Crawl cfg = Some c ->
  Work.crawl fuel get web c = Some c' ->
  Machine.ascending (Work.results c').
Proof.
  intros Hc Hrun.
  assert (∀ fuel d c1 c2,
            Forall (fun n => NodeDepth n = d) (Work.queue c1) ->
            Forall (fun r => Depth r <= d) (Work.results c1) ->
            Machine.ascending (Work.results c1) ->
            Work.crawl fuel get web c1 = Some c2 ->
            Machine.ascending (Work.results c2)) as Hloop.
  { clear. induction fuel as [|fuel IH]; intros d c1 c2 Hq Hle Hasc; simpl.
    { by intros [= <-]. }
    destruct (Work.queue c1) as [|n q] eqn:Hqc; [by intros [= <-]|].
    unfold Work.work. rewrite Hqc.
    destruct (Work.work_range get web c1 (n :: q)) as [[c3 batches]|] eqn:Hrange; [|done].
    simpl. apply work_range_level with (d := d) in Hrange
      as (Hle3 & Hasc3 & Hcfg & Hbatches); try done.
    destruct (Work_merge_inv c3 batches) as (_ & _ & Hres & _ & Hfresh).
    apply (IH (d + 1)).
    - apply Forall_forall. intros m Hm. destruct (Hfresh m Hm) as [Hin _].
      rewrite Forall_forall in Hbatches. by apply Hbatches.
    - rewrite Hres. eapply Forall_impl; [exact Hle3|]. intros r Hr. simpl in Hr. lia.
    - by rewrite Hres. }
  unfold Work.Crawl in Hc.
  destruct (URLFilter.preparePattern (Include cfg)) as [inc|]; [|done].
  destruct (URLFilter.preparePattern (Exclude cfg)) as [exc|]; [|done].
  simpl in Hc. injection Hc as <-.
  eapply (Hloop fuel 0); [| | |exact Hrun]; simpl.
  - by apply Forall_singleton.
  - constructor.
  - intros i j r1 r2 _ Hi. done.
Qed.

End WorkMore.

(** ** The [data.Address] generation, further *)

Section FrontierMore.
Context {RL : RegexpLib} {UL : UrlLib} {BL : RobotsLib}.

Lemma merge_link_frame (c : Frontier.Crawler) (link : Link) :
  Frontier.depth (Frontier.merge_link c link) = Frontier.depth c ∧
  Frontier.queue (Frontier.merge_link c link) = Frontier.queue c ∧
  Frontier.results (Frontier.merge_link c link) = Frontier.results c ∧
  Frontier.robots (Frontier.merge_link c link) = Frontier.robots c ∧
  Frontier.include (Frontier.merge_link c link) = Frontier.include c ∧
  Frontier.exclude (Frontier.merge_link c link) = Frontier.exclude c ∧
  Frontier.config (Frontier.merge_link c link) = Frontier.config c ∧
  Frontier.seen c ⊆ Frontier.seen (Frontier.merge_link c link) ∧
  Frontier.nextqueue c `prefix_of` Frontier.nextqueue (Frontier.merge_link c link).
Proof.
  unfold Frontier.merge_link.
  destruct (LinkAddress link) as [a|]; [|done].
  destruct (negb _); [done|]. destruct (decide _); [done|].
  destruct (_ && _); [done|]. simpl. repeat split; try done.
  - intros k Hk. by apply elem_of_union_r.
  - by apply prefix_app_r.
Qed.

Lemma foldl_merge_link_frame (links : list Link) (c : Frontier.Crawler) :
  Frontier.depth (foldl Frontier.merge_link c links) = Frontier.depth c ∧
  Frontier.queue (foldl Frontier.merge_link c links) = Frontier.queue c ∧
  Frontier.results (foldl Frontier.merge_link c links) = Frontier.results c ∧
  Frontier.config (foldl Frontier.merge_link c links) = Frontier.config c ∧
  Frontier.seen c ⊆ Frontier.seen (foldl Frontier.merge_link c links) ∧
  Frontier.nextqueue c `prefix_of` Frontier.nextqueue (foldl Frontier.merge_link c links).
Proof.
  revert c. induction links as [|l links IH]; intros c; simpl; [done|].
  destruct (IH (Frontier.merge_link c l)) as (Hd & Hq & Hr & Hc & Hs & Hn).
  destruct (merge_link_frame c l) as (Hd' & Hq' & Hr' & _ & _ & _ & Hc' & Hs' & Hn').
  repeat split; try congruence.
  - by etrans.
  - by etrans.
Qed.

(** A link that [merge] has nothing to do with stays so after another
    link has been merged. *)
Lemma merge_link_settled (c : Frontier.Crawler) (l l' : Link) :
  Frontier.merge_link c l = c ->
  Frontier.merge_link (Frontier.merge_link c l') l = Frontier.merge_link c l'.
Proof.
  intros Hl.
  destruct (merge_link_frame c l') as (_ & _ & _ & _ & Hi & He & Hc & Hs & _).
  destruct (merge_link_cases c l) as [_|(a & Ha & Hnew & Hq & _)].
  2:{ rewrite Hl in Hq. apply (f_equal length) in Hq.
      rewrite length_app in Hq. simpl in Hq. lia. }
  revert Hl. unfold Frontier.merge_link at 1 2. unfold Frontier.willCrawl.
  destruct (LinkAddress l) as [a|]; [|done]. rewrite Hi, He, Hc.
  destruct (negb _); [done|].
  destruct (decide (Full a ∈ Frontier.seen c)) as [Hin|Hout].
  { intros _. destruct (decide _) as [|Hn]; [done|]. destruct Hn. by apply Hs. }
  destruct (_ && _); [intros _; by destruct (decide _)|].
  intros Hl. apply (f_equal Frontier.nextqueue) in Hl. simpl in Hl.
  apply (f_equal length) in Hl. rewrite length_app in Hl. simpl in Hl. lia.
Qed.

Lemma merge_link_twice (c : Frontier.Crawler) (l : Link) :
  Frontier.merge_link (Frontier.merge_link c l) l = Frontier.merge_link c l.
Proof.
  destruct (merge_link_cases c l) as [Hsame|(a & Ha & Hnew & _ & Hs & _)].
  { by rewrite !Hsame. }
  destruct (merge_link_frame c l) as (_ & _ & _ & _ & Hi & He & Hc & _).
  unfold Frontier.merge_link at 1. unfold Frontier.willCrawl.
  rewrite Ha, Hi, He, Hs. destruct (negb _); [done|].
  destruct (decide _) as [|Hn]; [done|]. destruct Hn.
  apply elem_of_union_l. by apply elem_of_singleton.
Qed.

Lemma foldl_merge_link_settled (links : list Link) (c : Frontier.Crawler) (l : Link) :
  Frontier.merge_link c l = c ->
  Frontier.merge_link (foldl Frontier.merge_link c links) l =
  foldl Frontier.merge_link c links.
Proof.
  revert c. induction links as [|l' links IH]; intros c Hl; simpl; [done|].
  apply IH. by apply merge_link_settled.
Qed.

Lemma foldl_merge_link_done (links : list Link) (c : Frontier.Crawler) (l : Link) :
  l ∈ links ->
  Frontier.merge_link (foldl Frontier.merge_link c links) l =
  foldl Frontier.merge_link c links.
Proof.
  revert c. induction links as [|l' links IH]; intros c Hin; [by apply elem_of_nil in Hin|].
  simpl. apply elem_of_cons in Hin as [->|Hin]; [|by apply IH].
  apply foldl_merge_link_settled, merge_link_twice.
Qed.

(** X12. Merging the same links a second time adds nothing: every address
    the first merge enqueued is seen, and what it dropped for the
    filter, for nofollow or for the depth gate is dropped again. *)
Theorem Frontier_merge_idempotent (c : Frontier.Crawler) (links : list Link) :
  Frontier.merge (Frontier.merge c links) links = Frontier.merge c links.
Proof.
  unfold Frontier.merge.
  destruct (negb (bool_decide (Frontier.depth c < MaxDepth (Frontier.config c)))) eqn:Hgate.
  { by rewrite Hgate. }
  destruct (foldl_merge_link_frame links c) as (Hd & _ & _ & Hc & _).
  rewrite Hd, Hc, Hgate.
  assert (∀ ls c1, (∀ l, l ∈ ls -> Frontier.merge_link c1 l = c1) ->
                   foldl Frontier.merge_link c1 ls = c1) as Hnothing.
  { induction ls as [|l ls IH]; intros c1 Hall; [done|]. simpl.
    rewrite (Hall l) by left. apply IH. intros l' Hl'. apply Hall. by right. }
  apply Hnothing. intros l Hl. by apply foldl_merge_link_done.
Qed.

Lemma foldl_merge_link_keeps (links : list Link) (c : Frontier.Crawler) :
  NoDup (Full <$> Frontier.nextqueue c) ->
  (∀ a, a ∈ Frontier.nextqueue c -> Full a ∈ Frontier.seen c) ->
  NoDup (Full <$> Frontier.nextqueue (foldl Frontier.merge_link c links)) ∧
  (∀ a, a ∈ Frontier.nextqueue (foldl Frontier.merge_link c links) ->
        Full a ∈ Frontier.seen (foldl Frontier.merge_link c links)).
Proof.
  revert c. induction links as [|l links IH]; intros c Hnd Hseen; simpl; [done|].
  destruct (merge_link_cases c l) as [->|(a & Ha & Hnew & Hnq & Hsn & _)];
    [by apply IH|].
  apply IH.
  - rewrite Hnq, fmap_app. simpl. apply NoDup_app. split; [done|].
    split; [|apply NoDup_singleton].
    intros k (a' & Hk & Ha')%list_elem_of_fmap Hk'%list_elem_of_singleton.
    apply Hnew. rewrite <- Hk', Hk. by apply Hseen.
  - rewrite Hnq, Hsn. intros a' [Ha'|Ha']%elem_of_app.
    + apply elem_of_union_r. by apply Hseen.
    + apply list_elem_of_singleton in Ha' as ->. apply elem_of_union_l.
      by apply elem_of_singleton.
Qed.

(** X13. [merge] keeps the next queue in step with the seen set: if no URL
    string is twice in the next queue and each is seen, this is so
    after the merge; what was in the next queue stays in front, in
    order; the current queue, the depth and the results are untouched
    and the seen set only grows. *)
Theorem Frontier_merge_keeps (c : Frontier.Crawler) (links : list Link) :
  NoDup (Full <$> Frontier.nextqueue c) ->
  (∀ a, a ∈ Frontier.nextqueue c -> Full a ∈ Frontier.seen c) ->
  NoDup (Full <$> Frontier.nextqueue (Frontier.merge c links)) ∧
  (∀ a, a ∈ Frontier.nextqueue (Frontier.merge c links) ->
        Full a ∈ Frontier.seen (Frontier.merge c links)) ∧
  Frontier.nextqueue c `prefix_of` Frontier.nextqueue (Frontier.merge c links) ∧
  Frontier.seen c ⊆ Frontier.seen (Frontier.merge c links) ∧
  Frontier.queue (Frontier.merge c links) = Frontier.queue c ∧
  Frontier.depth (Frontier.merge c links) = Frontier.depth c ∧
  Frontier.results (Frontier.merge c links) = Frontier.results c.
Proof.
  intros Hnd Hseen. unfold Frontier.merge. destruct (negb _); [done|].
  destruct (foldl_merge_link_frame links c) as (Hd & Hq & Hr & _ & Hs & Hn).
  destruct (foldl_merge_link_keeps links c Hnd Hseen) as [Hnd' Hseen'].
  done.
Qed.

(** X14. A fetch sends one result when the client answers and none when it
    does not; the result carries the address fetched and the depth of
    the crawler; the current queue, the depth and the configuration are
    never touched, and the next queue and the seen set only grow. *)
Theorem Frontier_fetch_effect (c c' : Frontier.Crawler) (addr : Address)
    (o : FetchOutcome) (res : option Result) :
  Frontier.fetch c addr o = Some (c', res) ->
  Frontier.queue c' = Frontier.queue c ∧
  Frontier.depth c' = Frontier.depth c ∧
  Frontier.config c' = Frontier.config c ∧
  Frontier.seen c ⊆ Frontier.seen c' ∧
  Frontier.nextqueue c `prefix_of` Frontier.nextqueue c' ∧
  match res with
  | None => c' = c ∧ (o = RequestError ∨ o = GetError)
  | Some r =>
      Frontier.results c' = Frontier.results c ++ [r] ∧
      Depth r = Frontier.depth c ∧ ResultAddress r = Some addr ∧
      ∃ resp, o = GetResponse resp ∧ StatusCode r = RespStatusCode resp ∧
              Status r = RespStatus resp
  end.
Proof.
  unfold Frontier.fetch. destruct o as [| |resp].
  - intros [= <- <-]. repeat split; try done. by left.
  - intros [= <- <-]. repeat split; try done. by right.
  - destruct (result.Hydrate1 _ resp) as [hydrated|] eqn:Hh; [|done]. simpl.
    destruct (resolve_redirect (Some addr) hydrated resp) as [r links] eqn:Hr.
    intros [= <- <-]. simpl.
    assert (Status hydrated = RespStatus resp) as Hstatus.
    { assert (∀ r0 doc, result.Hydrate r0 resp doc = Some hydrated ->
                        Status hydrated = RespStatus resp) as Hdoc.
      { intros r0 doc. unfold result.Hydrate.
        destruct (ResultAddress r0) as [a0|]; [|done]. simpl.
        destruct (result.getLinks (AddrURL a0) doc); [|done]. simpl.
        by intros [= <-]. }
      unfold result.Hydrate1 in Hh. destruct (RespDoc resp); by eapply Hdoc. }
    apply Hydrate1_keeps in Hh as (Hd & Ha & _ & Hcode). simpl in *.
    assert (Depth r = Depth hydrated ∧ ResultAddress r = ResultAddress hydrated ∧
            StatusCode r = StatusCode hydrated ∧ Status r = Status hydrated)
      as (Hd' & Ha' & Hcode' & Hstatus').
    { unfold resolve_redirect in Hr. destruct (is_redirect resp); by injection Hr as <- _. }
    unfold Frontier.merge. destruct (negb _); simpl.
    + repeat split; try done; try congruence. exists resp. split; [done|]. split; congruence.
    + destruct (foldl_merge_link_frame links c) as (Hfd & Hfq & Hfr & Hfc & Hfs & Hfn).
      rewrite Hfr. repeat split; try done; try congruence.
      exists resp. split; [done|]. split; congruence.
Qed.

End FrontierMore.

(** ** The state machine, further *)

Section MachineMore.
Context {RL : RegexpLib} {UL : UrlLib} {BL : RobotsLib}.

(** What a call of a state function other than [crawlCheckRobots] can
    return. *)
Lemma call_cases (f : Machine.crawlfn) (early : bool) (get : string -> Robots.RobotsFetch)
    (c c' : Machine.Crawler) (f' : option Machine.crawlfn)
    (spawned : list Machine.goroutine) :
  Machine.call f early get c = Machine.Return f' c' spawned ->
  match f with
  | Machine.fnStartQueue =>
      spawned = [] ∧ c' = c ∧
      ((f' = Some Machine.fnStart ∧ Machine.queue c ≠ []) ∨
       (f' = None ∧ Machine.queue c = []))
  | Machine.fnNextQueue =>
      spawned = [] ∧ c' = Machine.set_queues c (Machine.nextqueue c) [] ∧
      f' = Some Machine.fnStartQueue
  | Machine.fnStart =>
      spawned = [] ∧ c' = c ∧
      (f' = Some Machine.fnWait ∨ f' = Some Machine.fnNext ∨ f' = Some Machine.fnDo)
  | Machine.fnWait => spawned = [] ∧ c' = c ∧ f' = Some Machine.fnStart
  | Machine.fnNext =>
      ∃ node rest, Machine.queue c = node :: rest ∧ spawned = [] ∧
        c' = Machine.set_queues c rest (Machine.nextqueue c) ∧
        ((f' = Some Machine.fnStart ∧ rest ≠ []) ∨ (f' = Some Machine.fnAwait ∧ rest = []))
  | Machine.fnDo =>
      ∃ node rest, Machine.queue c = node :: rest ∧
        spawned = [Machine.Fetching node; Machine.Awaiting] ∧
        c' = Machine.acquire c ∧ f' = Some Machine.fnNext ∧
        Z.of_nat (Machine.connections c) < Connections (Machine.config c)
  | Machine.fnAwait =>
      spawned = [] ∧ c' = c ∧ f' = Some Machine.fnNextQueue ∧ Machine.wg c = 0%nat
  | Machine.fnCheckRobots => True
  end.
Proof.
  destruct f; simpl; try done.
  - unfold Machine.crawlStartQueue. destruct (decide _) as [Hlen|Hlen]; intros [= <- <- <-].
    + repeat split; try done. left. split; [done|]. intros Hq. rewrite Hq in Hlen.
      simpl in Hlen. lia.
    + repeat split; try done. right. split; [done|].
      destruct (Machine.queue c); [done|]. simpl in Hlen. lia.
  - unfold Machine.crawlNextQueue. by intros [= <- <- <-].
  - unfold Machine.crawlStart. destruct (Machine.queue c) as [|node rest]; [done|].
    destruct early; [intros [= <- <- <-]; eauto 10|].
    destruct (decide _); [intros [= <- <- <-]; eauto 10|].
    destruct (NodeAddress node); [|done].
    destruct (negb _); intros [= <- <- <-]; eauto 10.
  - unfold Machine.crawlWait. by intros [= <- <- <-].
  - unfold Machine.crawlNext. destruct (Machine.queue c) as [|node rest]; [done|].
    destruct (decide _) as [Hlen|Hlen]; intros [= <- <- <-]; exists node, rest.
    + repeat split; try done. left. split; [done|]. intros ->. simpl in Hlen. lia.
    + repeat split; try done. right. split; [done|].
      destruct rest; [done|]. simpl in Hlen. lia.
  - unfold Machine.crawlDo. destruct (Machine.queue c) as [|node rest]; [done|].
    destruct (decide _); [|done]. intros [= <- <- <-]. by exists node, rest.
  - unfold Machine.crawlAwait. destruct (decide _); [|done]. by intros [= <- <- <-].
Qed.

Lemma count_app (kind : Machine.goroutine -> nat) (p q : list Machine.goroutine) :
  Accounts.count kind (p ++ q) = (Accounts.count kind p + Accounts.count kind q)%nat.
Proof. apply sum_list_with_app. Qed.

Lemma count_cons (kind : Machine.goroutine -> nat) (g : Machine.goroutine)
    (p : list Machine.goroutine) :
  Accounts.count kind (g :: p) = (kind g + Accounts.count kind p)%nat.
Proof. done. Qed.

Lemma count_nil (kind : Machine.goroutine -> nat) : Accounts.count kind [] = 0%nat.
Proof. done. Qed.

Lemma merge_node_frame (c : Machine.Crawler) (node : Node) :
  Machine.queue (Machine.merge_node c node) = Machine.queue c ∧
  Machine.results (Machine.merge_node c node) = Machine.results c ∧
  Machine.connections (Machine.merge_node c node) = Machine.connections c ∧
  Machine.wg (Machine.merge_node c node) = Machine.wg c ∧
  Accounts.same_setup c (Machine.merge_node c node).
Proof.
  destruct (merge_node_cases c node) as [->|(a & _ & _ & ->)]; done.
Qed.

Lemma balanced_step (w w' : Machine.World) :
  Accounts.balanced w -> Machine.fn w ≠ Some Machine.fnCheckRobots ->
  Machine.step w w' -> Accounts.balanced w'.
Proof.
  intros (Hconn & Hwg & Hpairs) Hrobots Hstep. unfold Accounts.balanced.
  destruct Hstep as [w f early get f' c' spawned Hf Hcall
                    | w p1 p2 node o sent Hpool Hfetch
                    | w p1 p2 node o r sent Hpool Hfetch
                    | w p1 p2 r Hpool Hopen Hroom
                    | w p1 p2 q1 q2 nodes Hpool Hwait
                    | w p1 p2 node nodes Hpool
                    | w p1 p2 Hpool
                    | w r rs Hres ]; simpl.
  - apply call_cases in Hcall.
    destruct f; try congruence.
    + destruct Hcall as (-> & -> & _). by rewrite app_nil_r.
    + destruct Hcall as (-> & -> & _). by rewrite app_nil_r.
    + destruct Hcall as (-> & -> & _). by rewrite app_nil_r.
    + destruct Hcall as (-> & -> & _). by rewrite app_nil_r.
    + destruct Hcall as (node & rest & _ & -> & -> & _). by rewrite app_nil_r.
    + destruct Hcall as (node & rest & _ & -> & -> & _). simpl.
      rewrite !count_app, !count_cons, !count_nil. simpl. lia.
    + destruct Hcall as (-> & -> & _). by rewrite app_nil_r.
  - rewrite Hpool, !count_app, !count_cons in *. simpl in *. lia.
  - rewrite Hpool, !count_app, !count_cons in *. simpl in *. lia.
  - rewrite Hpool, !count_app, !count_cons in *. simpl in *. lia.
  - apply (f_equal (fun p => (Accounts.count Accounts.fetching p,
                              Accounts.count Accounts.publishing p,
                              Accounts.count Accounts.sending p,
                              Accounts.count Accounts.awaiting p,
                              Accounts.count Accounts.merging p))) in Hwait.
    rewrite Hpool, !count_app, !count_cons in *. simpl in *.
    injection Hwait as H1 H2 H3 H4 H5. lia.
  - destruct (merge_node_frame (Machine.crawler w) node) as (_ & _ & -> & -> & _).
    rewrite Hpool, !count_app, !count_cons in *. simpl in *. lia.
  - rewrite Hpool, !count_app, !count_cons in *. simpl in *. lia.
  - done.
Qed.

Lemma setup_step (w w' : Machine.World) :
  Machine.fn w ≠ Some Machine.fnCheckRobots ->
  Machine.step w w' ->
  Accounts.same_setup (Machine.crawler w) (Machine.crawler w').
Proof.
  intros Hrobots Hstep.
  destruct Hstep as [w f early get f' c' spawned Hf Hcall | | | | | w p1 p2 node nodes Hpool | | ];
    simpl; try done.
  - apply call_cases in Hcall. destruct f; try congruence.
    + by destruct Hcall as (_ & -> & _).
    + by destruct Hcall as (_ & -> & _).
    + by destruct Hcall as (_ & -> & _).
    + by destruct Hcall as (_ & -> & _).
    + by destruct Hcall as (node & rest & _ & _ & -> & _).
    + by destruct Hcall as (node & rest & _ & _ & -> & _).
    + by destruct Hcall as (_ & -> & _).
  - by destruct (merge_node_frame (Machine.crawler w) node) as (_ & _ & _ & _ & ?).
Qed.

Lemma only_publishing_of_counts (pool : list Machine.goroutine) :
  Accounts.count Accounts.fetching pool = 0%nat ->
  Accounts.count Accounts.sending pool = 0%nat ->
  Accounts.count Accounts.awaiting pool = 0%nat ->
  Accounts.count Accounts.merging pool = 0%nat ->
  Accounts.only_publishing pool.
Proof.
  induction pool as [|g pool IH]; intros Hf Hs Ha Hm g' Hg'.
  { by apply elem_of_nil in Hg'. }
  rewrite count_cons in Hf, Hs, Ha, Hm.
  apply elem_of_cons in Hg' as [->|Hg'].
  - destruct g; simpl in *; try lia. eauto.
  - apply IH; try done; lia.
Qed.


(** With the wait group at zero nothing but senders of results is
    left. *)
Lemma balanced_wg_zero (w : Machine.World) :
  Accounts.balanced w -> Machine.wg (Machine.crawler w) = 0%nat ->
  Accounts.only_publishing (Machine.pool w).
Proof.
  intros (_ & Hwg & Hpairs) Hzero. rewrite Hzero in Hwg.
  apply only_publishing_of_counts; lia.
Qed.

Lemma quiet_step (w w' : Machine.World) :
  Accounts.quiet w -> Accounts.balanced w ->
  Machine.fn w ≠ Some Machine.fnCheckRobots ->
  Machine.step w w' -> Accounts.quiet w'.
Proof.
  intros Hquiet Hbal Hrobots Hstep.
  assert (∀ p1 g p2, Machine.pool w = p1 ++ g :: p2 ->
            (∀ r, g ≠ Machine.Publishing r) ->
            Machine.wg (Machine.crawler w) ≠ 0%nat) as Hbusy.
  { intros p1 g p2 Hpool Hg Hzero.
    destruct (balanced_wg_zero w Hbal Hzero g) as [r ->]; [|by eapply Hg].
    rewrite Hpool. apply elem_of_app. right. left. }
  unfold Accounts.quiet in *.
  destruct Hstep as [w f early get f' c' spawned Hf Hcall
                    | w p1 p2 node o sent Hpool Hfetch
                    | w p1 p2 node o r sent Hpool Hfetch
                    | w p1 p2 r Hpool Hopen Hroom
                    | w p1 p2 q1 q2 nodes Hpool Hwait
                    | w p1 p2 node nodes Hpool
                    | w p1 p2 Hpool
                    | w r rs Hres ]; simpl.
  - apply call_cases in Hcall. rewrite Hf in Hquiet.
    destruct f; try congruence.
    + destruct Hcall as (_ & -> & [[-> _]|[-> Hq]]); [done|]. by destruct Hquiet.
    + destruct Hcall as (_ & -> & ->). simpl. by destruct Hquiet.
    + by destruct Hcall as (_ & -> & [->|[->| ->]]).
    + by destruct Hcall as (_ & -> & ->).
    + by destruct Hcall as (node & rest & _ & _ & -> & [[-> _]|[-> ->]]).
    + by destruct Hcall as (node & rest & _ & _ & -> & -> & _).
    + destruct Hcall as (_ & -> & -> & Hwg). done.
  - specialize (Hbusy p1 _ p2 Hpool ltac:(done)).
    destruct (Machine.fn w) as [[]|]; try done; by destruct Hquiet.
  - done.
  - done.
  - done.
  - specialize (Hbusy p1 _ p2 Hpool ltac:(done)).
    destruct (merge_node_frame (Machine.crawler w) node) as (-> & _).
    destruct (Machine.fn w) as [[]|]; try done; by destruct Hquiet.
  - specialize (Hbusy p1 _ p2 Hpool ltac:(done)).
    destruct (Machine.fn w) as [[]|]; try done; by destruct Hquiet.
  - done.
Qed.


Lemma addressed_step (w w' : Machine.World) :
  Accounts.addressed w -> Machine.fn w ≠ Some Machine.fnCheckRobots ->
  Machine.step w w' -> Accounts.addressed w'.
Proof.
  intros (Hq & Hnq & Hp) Hrobots Hstep. unfold Accounts.addressed.
  destruct Hstep as [w f early get f' c' spawned Hf Hcall
                    | w p1 p2 node o sent Hpool Hfetch
                    | w p1 p2 node o r sent Hpool Hfetch
                    | w p1 p2 r Hpool Hopen Hroom
                    | w p1 p2 q1 q2 nodes Hpool Hwait
                    | w p1 p2 node nodes Hpool
                    | w p1 p2 Hpool
                    | w r rs Hres ]; simpl; try done.
  - apply call_cases in Hcall. destruct f; try congruence.
    + destruct Hcall as (-> & -> & _). by rewrite app_nil_r.
    + destruct Hcall as (-> & -> & _). rewrite app_nil_r. simpl. by repeat split.
    + destruct Hcall as (-> & -> & _). by rewrite app_nil_r.
    + destruct Hcall as (-> & -> & _). by rewrite app_nil_r.
    + destruct Hcall as (node & rest & Hqc & -> & -> & _). rewrite app_nil_r. simpl.
      rewrite Hqc in Hq. apply Forall_cons in Hq as [_ Hq]. done.
    + destruct Hcall as (node & rest & Hqc & -> & -> & _). simpl.
      repeat split; try done. apply Forall_app. split; [done|].
      rewrite Hqc in Hq. apply Forall_cons in Hq as [Hnode _].
      by repeat constructor.
    + destruct Hcall as (-> & -> & _). by rewrite app_nil_r.
  - rewrite Hpool in Hp. apply Forall_app in Hp as [Hp1 [_ Hp2]%Forall_cons].
    repeat split; try done. apply Forall_app. split; [done|]. by constructor.
  - rewrite Hpool in Hp. apply Forall_app in Hp as [Hp1 [_ Hp2]%Forall_cons].
    repeat split; try done. apply Forall_app. split; [done|]. by repeat constructor.
  - rewrite Hpool in Hp. apply Forall_app in Hp as [Hp1 [_ Hp2]%Forall_cons].
    repeat split; try done. by apply Forall_app.
  - rewrite Hpool in Hp. apply Forall_app in Hp as [Hp1 [_ Hp2]%Forall_cons].
    assert (Forall Accounts.goroutine_addressed (q1 ++ Machine.Awaiting :: q2)) as Hq12.
    { rewrite <- Hwait. by apply Forall_app. }
    apply Forall_app in Hq12 as [Hq1 [_ Hq2]%Forall_cons].
    repeat split; try done. apply Forall_app. split; [done|]. by constructor.
  - rewrite Hpool in Hp. apply Forall_app in Hp as [Hp1 [_ Hp2]%Forall_cons].
    assert (Forall Accounts.goroutine_addressed (p1 ++ Machine.Merging nodes :: p2)) as Hp'.
    { apply Forall_app. split; [done|]. by constructor. }
    destruct (merge_node_cases (Machine.crawler w) node) as [->|(a & Ha & _ & ->)];
      [done|]. simpl. repeat split; try done.
    apply Forall_app. split; [done|]. apply Forall_singleton.
    unfold Accounts.has_address. by rewrite Ha.
  - rewrite Hpool in Hp. apply Forall_app in Hp as [Hp1 [_ Hp2]%Forall_cons].
    repeat split; try done. by apply Forall_app.
Qed.


Lemma CrawlList_start (cfg : Config) (q : list Node) (c : Machine.Crawler) :
  Machine.CrawlList cfg q = Some c ->
  Machine.queue c = q ∧ Machine.nextqueue c = [] ∧ Machine.results c = [] ∧
  Machine.robots c = ∅ ∧ Machine.connections c = 0%nat ∧ Machine.wg c = 0%nat ∧
  Machine.config c = cfg ∧ 0 <= Connections cfg ∧
  URLFilter.preparePattern (Include cfg) = Some (Machine.include c) ∧
  URLFilter.preparePattern (Exclude cfg) = Some (Machine.exclude c) ∧
  Forall Accounts.has_address q.
Proof.
  unfold Machine.CrawlList. destruct (decide _) as [|Hcap]; [done|].
  destruct (URLFilter.preparePattern (Include cfg)) as [inc|]; [|done]. simpl.
  destruct (URLFilter.preparePattern (Exclude cfg)) as [exc|]; [|done]. simpl.
  destruct (mapM _ q) as [keys|] eqn:Hk; [|done]. simpl.
  intros [= <-]. simpl. repeat split; try done; [lia|].
  apply mapM_Some in Hk. apply Forall_forall. intros v Hv.
  apply list_elem_of_lookup in Hv as [i Hi].
  destruct (Forall2_lookup_l _ _ _ _ _ Hk Hi) as (k & _ & Hkey).
  unfold Accounts.has_address. by destruct (NodeAddress v).
Qed.

Lemma bounded_step (cap : Z) (w w' : Machine.World) :
  Z.of_nat (Machine.connections (Machine.crawler w)) <= cap ->
  Connections (Machine.config (Machine.crawler w)) = cap ->
  Machine.fn w ≠ Some Machine.fnCheckRobots ->
  Machine.step w w' ->
  Z.of_nat (Machine.connections (Machine.crawler w')) <= cap.
Proof.
  intros Hle Hcap Hrobots Hstep.
  destruct Hstep as [w f early get f' c' spawned Hf Hcall | | | | | w p1 p2 node nodes Hpool | | ];
    simpl; try lia.
  - apply call_cases in Hcall. destruct f; try congruence.
    + by destruct Hcall as (_ & -> & _).
    + by destruct Hcall as (_ & -> & _).
    + by destruct Hcall as (_ & -> & _).
    + by destruct Hcall as (_ & -> & _).
    + by destruct Hcall as (node & rest & _ & _ & -> & _).
    + destruct Hcall as (node & rest & _ & _ & -> & _ & Hroom). simpl. lia.
    + by destruct Hcall as (_ & -> & _).
  - by destruct (merge_node_frame (Machine.crawler w) node) as (_ & _ & -> & _).
Qed.

(** What holds in every world the crawler reaches from [CrawlList]. *)
Lemma sound_reachable (cfg : Config) (q : list Node) (c : Machine.Crawler)
    (w : Machine.World) :
  Machine.CrawlList cfg q = Some c ->
  rtc Machine.step (Machine.start c) w ->
  Machine.head_safe w ∧ Accounts.balanced w ∧ Accounts.quiet w ∧
  Accounts.addressed w ∧ Accounts.same_setup c (Machine.crawler w) ∧
  Z.of_nat (Machine.connections (Machine.crawler w)) <= Connections cfg.
Proof.
  intros (Hq & Hnq & Hres & Hrb & Hconn & Hwg & Hcfg & Hcap & _ & _ & Haddr)%CrawlList_start.
  revert w.
  apply (rtc_ind_r (R := Machine.step)
           (fun w => Machine.head_safe w ∧ Accounts.balanced w ∧ Accounts.quiet w ∧
                     Accounts.addressed w ∧ Accounts.same_setup c (Machine.crawler w) ∧
                     Z.of_nat (Machine.connections (Machine.crawler w)) <= Connections cfg)).
  - split; [apply head_safe_start|]. simpl.
    unfold Accounts.balanced, Accounts.quiet, Accounts.addressed. simpl.
    rewrite Hconn, Hwg, Hnq, Hq. repeat split; try done.
  - intros w w' _ Hstep (Hsafe & Hbal & Hquiet & Haddr' & Hsetup & Hle).
    pose proof (proj2 Hsafe) as Hrobots.
    split; [by eapply head_safe_step|].
    split; [by eapply balanced_step|].
    split; [by eapply quiet_step|].
    split; [by eapply addressed_step|].
    pose proof (setup_step w w' Hrobots Hstep) as (Hc1 & Hc2 & Hc3 & Hc4).
    destruct Hsetup as (Hs1 & Hs2 & Hs3 & Hs4).
    split; [unfold Accounts.same_setup; repeat split; congruence|].
    eapply bounded_step; [done| |done..]. congruence.
Qed.

(** X15. The semaphore in numbers: the permits taken are the fetches that
    have been dispatched and have not yet returned (those waiting for
    the client and those about to send their result), and there are
    never more of them than [Connections]. *)
Theorem connections_within_cap (cfg : Config) (q : list Node) (c : Machine.Crawler)
    (w : Machine.World) :
  Machine.CrawlList cfg q = Some c ->
  rtc Machine.step (Machine.start c) w ->
  Machine.connections (Machine.crawler w) =
    (Accounts.count Accounts.fetching (Machine.pool w) +
     Accounts.count Accounts.publishing (Machine.pool w))%nat ∧
  Z.of_nat (Accounts.count Accounts.fetching (Machine.pool w) +
            Accounts.count Accounts.publishing (Machine.pool w)) <= Connections cfg.
Proof.
  intros Hc Hrun.
  destruct (sound_reachable cfg q c w Hc Hrun) as (_ & (Hconn & _) & _ & _ & _ & Hle).
  split; [done|]. by rewrite <- Hconn.
Qed.

(** X16. What the wait group does guarantee. When [crawlAwait] has
    returned and the next queue is about to be promoted, the current
    queue is empty, every fetch of the level has been answered and
    every merge has returned: the only goroutines left are fetchers
    that still have to send their result. *)
Theorem promotion_waits_for_merges (cfg : Config) (q : list Node) (c : Machine.Crawler)
    (w : Machine.World) :
  Machine.CrawlList cfg q = Some c ->
  rtc Machine.step (Machine.start c) w ->
  Machine.fn w = Some Machine.fnNextQueue ->
  Machine.queue (Machine.crawler w) = [] ∧
  Machine.wg (Machine.crawler w) = 0%nat ∧
  Accounts.only_publishing (Machine.pool w).
Proof.
  intros Hc Hrun Hf.
  destruct (sound_reachable cfg q c w Hc Hrun) as (_ & Hbal & Hquiet & _).
  unfold Accounts.quiet in Hquiet. rewrite Hf in Hquiet. destruct Hquiet as [Hwg Hq].
  repeat split; try done. by apply balanced_wg_zero.
Qed.

(** X17. The loop ends, and [c.results] is closed, only when both queues are
    empty and no fetch waits for its client and no merge is running;
    fetchers that still have to send their result may be left. *)
Theorem closed_when_exhausted (cfg : Config) (q : list Node) (c : Machine.Crawler)
    (w : Machine.World) :
  Machine.CrawlList cfg q = Some c ->
  rtc Machine.step (Machine.start c) w ->
  Machine.fn w = None ->
  Machine.queue (Machine.crawler w) = [] ∧
  Machine.nextqueue (Machine.crawler w) = [] ∧
  Accounts.only_publishing (Machine.pool w).
Proof.
  intros Hc Hrun Hf.
  destruct (sound_reachable cfg q c w Hc Hrun) as (_ & Hbal & Hquiet & _).
  unfold Accounts.quiet in Hquiet. rewrite Hf in Hquiet.
  destruct Hquiet as (Hwg & Hq & Hnq).
  repeat split; try done. by apply balanced_wg_zero.
Qed.


(** X19. In a run of the state machine the robots cache is never filled or
    changed, whatever robots.txt would say, and neither are the
    compiled patterns or the configuration. *)
Theorem robots_cache_never_filled (c : Machine.Crawler) (w : Machine.World) :
  rtc Machine.step (Machine.start c) w ->
  Machine.robots (Machine.crawler w) = Machine.robots c ∧
  Machine.include (Machine.crawler w) = Machine.include c ∧
  Machine.exclude (Machine.crawler w) = Machine.exclude c ∧
  Machine.config (Machine.crawler w) = Machine.config c.
Proof.
  intros Hrun.
  cut (rtc Machine.step (Machine.start c) w ∧ Accounts.same_setup c (Machine.crawler w)).
  { intros [_ (? & ? & ? & ?)]. done. }
  revert w Hrun.
  apply (rtc_ind_r (R := Machine.step)
           (fun w => rtc Machine.step (Machine.start c) w ∧
                     Accounts.same_setup c (Machine.crawler w))).
  - done.
  - intros w w' Hrun Hstep [_ (Hs1 & Hs2 & Hs3 & Hs4)].
    split; [by eapply rtc_r|].
    pose proof (crawlCheckRobots_unreachable c w Hrun) as Hrobots.
    pose proof (setup_step w w' Hrobots Hstep) as (Hc1 & Hc2 & Hc3 & Hc4).
    unfold Accounts.same_setup. repeat split; congruence.
Qed.

Lemma call_never_panics (cfg : Config) (q : list Node) (c : Machine.Crawler)
    (w : Machine.World) (f : Machine.crawlfn) (early : bool)
    (get : string -> Robots.RobotsFetch) (p : Machine.panic) :
  Machine.CrawlList cfg q = Some c ->
  rtc Machine.step (Machine.start c) w ->
  Machine.fn w = Some f ->
  Machine.call f early get (Machine.crawler w) ≠ Machine.Panics p.
Proof.
  intros Hc Hrun Hf.
  destruct (sound_reachable cfg q c w Hc Hrun) as ([Hq Hrobots] & _ & _ & (Haddr & _) & _).
  specialize (Hq f Hf).
  destruct f; simpl; try congruence;
    unfold Machine.crawlStartQueue, Machine.crawlNextQueue, Machine.crawlStart,
      Machine.crawlWait, Machine.crawlNext, Machine.crawlDo, Machine.crawlAwait;
    try specialize (Hq I);
    try (destruct (Machine.queue (Machine.crawler w)) as [|node rest]; [done|];
         apply Forall_cons in Haddr as [[a Ha] _]; try rewrite Ha);
    repeat case_match; done.
Qed.

(** X20. From [CrawlList] on, no state function panics, neither on the head
    of an empty queue nor on a nil address: the seeds have addresses
    (or [CrawlList] itself has panicked), and the merge enqueues none
    without. *)
Theorem machine_never_panics (cfg : Config) (q : list Node) (c : Machine.Crawler)
    (w : Machine.World) (f : Machine.crawlfn) (early : bool)
    (get : string -> Robots.RobotsFetch) (p : Machine.panic) :
  Machine.CrawlList cfg q = Some c ->
  rtc Machine.step (Machine.start c) w ->
  Machine.fn w = Some f ->
  Machine.call f early get (Machine.crawler w) ≠ Machine.Panics p.
Proof. exact (call_never_panics cfg q c w f early get p). Qed.





(** X22. With [Connections = 0] the semaphore is an unbuffered channel that
    nobody reads: nothing is ever dispatched, sent or returned. *)
Theorem no_connections_no_fetch (cfg : Config) (q : list Node) (c : Machine.Crawler)
    (w : Machine.World) :
  Machine.CrawlList cfg q = Some c ->
  Connections cfg = 0 ->
  rtc Machine.step (Machine.start c) w ->
  Machine.pool w = [] ∧ Machine.results (Machine.crawler w) = [] ∧
  Machine.emitted w = [].
Proof.
  intros Hc Hzero Hrun.
  pose proof Hc as (_ & _ & Hres & _ & Hconn & _ & Hcfg0 & _)%CrawlList_start.
  cut (rtc Machine.step (Machine.start c) w ∧ Accounts.idle w).
  { intros [_ (? & ? & ? & _)]. done. }
  revert w Hrun.
  apply (rtc_ind_r (R := Machine.step)
           (fun w => rtc Machine.step (Machine.start c) w ∧ Accounts.idle w)).
  - split; [done|]. unfold Accounts.idle. simpl. by rewrite Hres, Hconn.
  - intros w w' Hrun Hstep [_ (Hpool & Hresw & Hem & Hconnw)].
    split; [by eapply rtc_r|].
    destruct (sound_reachable cfg q c w Hc Hrun) as ([_ Hrobots] & _ & _ & _ & (Hcfg & _) & _).
    unfold Accounts.idle.
    destruct Hstep as [w f early get f' c' spawned Hf Hcall
                      | w p1 p2 node o sent Hp Hfetch
                      | w p1 p2 node o r sent Hp Hfetch
                      | w p1 p2 r Hp Hopen Hroom
                      | w p1 p2 q1 q2 nodes Hp Hwait
                      | w p1 p2 node nodes Hp
                      | w p1 p2 Hp
                      | w r rs Hr ]; simpl;
      try (rewrite Hpool in Hp; by destruct p1);
      try congruence.
    apply call_cases in Hcall. destruct f; try congruence.
    + destruct Hcall as (-> & -> & _). by rewrite app_nil_r.
    + destruct Hcall as (-> & -> & _). by rewrite app_nil_r.
    + destruct Hcall as (-> & -> & _). by rewrite app_nil_r.
    + destruct Hcall as (-> & -> & _). by rewrite app_nil_r.
    + destruct Hcall as (node & rest & _ & -> & -> & _). by rewrite app_nil_r.
    + destruct Hcall as (node & rest & _ & _ & _ & _ & Hroom).
      rewrite Hcfg, Hcfg0, Hzero, Hconnw in Hroom. simpl in Hroom. lia.
    + destruct Hcall as (-> & -> & _). by rewrite app_nil_r.
Qed.

End MachineMore.

(** ** The further properties on the examples *)

Module Checks.
Import Examples.

Lemma willCrawl_order_irrelevant_witness :
  URLFilter.willCrawl (H := literal_regexp)
    ["/keep"; "/more"] ["/skip"; "/tmp"] "http://h/keep" =
  URLFilter.willCrawl (H := literal_regexp)
    ["/more"; "/keep"] ["/tmp"; "/skip"] "http://h/keep".
Proof.
  apply (willCrawl_order_irrelevant (RL := literal_regexp)
           ["/keep"; "/more"] ["/more"; "/keep"]
           ["/skip"; "/tmp"] ["/tmp"; "/skip"] "http://h/keep").
  - apply perm_swap.
  - apply perm_swap.
Defined.

Lemma willCrawl_monotone_witness :
  URLFilter.willCrawl (H := literal_regexp) ["/keep"] (["/skip"] ++ ["/tmp"])
    "http://h/keep" = true ∧
  URLFilter.willCrawl (H := literal_regexp) ["/keep"] ["/skip"] "http://h/keep" = true.
Proof.
  split; [reflexivity|].
  refine (proj1 (willCrawl_monotone (RL := literal_regexp) ["/keep"] ["/more"]
                   ["/skip"] ["/tmp"] "http://h/keep" _)).
  reflexivity.
Defined.

Lemma addRobots_matcher_only_from_200_witness :
  (∅ : gmap string (option (list string))) !! "h" = Some (Some ["/private"]) ∨
  ∃ url body, parse "http://h/private" = Some url ∧ UHost url = "h" ∧
              robots_private (Robots.robotsPath url) = Robots.RobotsGot 200 body ∧
              Some body = Some ["/private"].
Proof.
  apply (addRobots_matcher_only_from_200 (UL := simple_url) (BL := prefix_robots)
           robots_private ∅ "http://h/private" "h" ["/private"]).
  vm_compute. reflexivity.
Defined.

Lemma addRobots_touches_one_host_witness :
  Robots.addRobots robots_private {["other" := Some ["/"]]} "http://h/private" !! "other" =
  ({["other" := Some ["/"]]} : gmap string (option (list string))) !! "other".
Proof.
  refine (proj1 (addRobots_touches_one_host (UL := simple_url) (BL := prefix_robots)
                   robots_private {["other" := Some ["/"]]}
                   "http://h/private" "other" _)).
  intros url Hurl. vm_compute in Hurl. injection Hurl as <-. vm_compute. discriminate.
Defined.

Lemma ensure_not_refreshed_witness :
  Robots.ensure (Robots.addRobots robots_500)
    (Robots.ensure (Robots.addRobots robots_private) ∅ (address "http://h/private"))
    (address "http://h/private") =
  Robots.ensure (Robots.addRobots robots_private) ∅ (address "http://h/private").
Proof.
  refine (proj2 (ensure_not_refreshed (UL := simple_url) (BL := prefix_robots)
                   robots_private robots_500 ∅
                   (address "http://h/private") (AddrURL (address "http://h/private")) _ _)).
  - vm_compute. reflexivity.
  - reflexivity.
Defined.

Lemma work_node_decides_witness :
  blocked_result (Some (address "http://h/private")) 0 =
  set_Status (MakeResult (NodeAddress (seed "http://h/private")) 0) "Blocked by robots.txt".
Proof.
  refine (proj1 (proj2 (work_node_decides no_robots work_denied work_denied
                          (seed "http://h/private")
                          (Work.Blocked (blocked_result (Some (address "http://h/private")) 0))
                          _))).
  vm_compute. reflexivity.
Defined.

Lemma Work_results_ascending_witness :
  Work.Crawl config0 = Some work0 ∧
  Machine.ascending
    (Work.results (default work0 (Work.crawl 5 robots_open loop_site work0))).
Proof.
  split; [vm_compute; reflexivity|].
  apply (Work_results_ascending config0 robots_open loop_site 5 work0).
  - vm_compute. reflexivity.
  - vm_compute. reflexivity.
Defined.

Lemma Frontier_merge_keeps_witness :
  NoDup (Full <$> Frontier.nextqueue (Frontier.merge frontier3 [link_x; link_x])).
Proof.
  refine (proj1 (Frontier_merge_keeps frontier3 [link_x; link_x] _ _)).
  - vm_compute. constructor.
  - intros a Ha. vm_compute in Ha. by apply elem_of_nil in Ha.
Defined.

Lemma Frontier_fetch_effect_witness :
  Frontier.queue (default frontier0 (fst <$> frontier_moved)) = Frontier.queue frontier0.
Proof.
  refine (proj1 (Frontier_fetch_effect frontier0 (default frontier0 (fst <$> frontier_moved))
                   (address "http://h/a") (GetResponse (moved "/b"))
                   (Some (fetched_result
                            (Machine.fetch (seed "http://h/a") (GetResponse (moved "/b")))))
                   _)).
  vm_compute. reflexivity.
Defined.

Lemma connections_within_cap_witness :
  Z.of_nat (Accounts.count Accounts.fetching (Machine.pool (after race crawler0)) +
            Accounts.count Accounts.publishing (Machine.pool (after race crawler0))) <= 2.
Proof.
  refine (proj2 (connections_within_cap config0 [seed "http://h/"] crawler0
                   (after race crawler0) _ _)).
  - vm_compute. reflexivity.
  - apply Runs.after_reachable. vm_compute. eauto.
Defined.

Lemma promotion_waits_for_merges_witness :
  Machine.fn (after race_until_promotion crawler0) = Some Machine.fnNextQueue ∧
  Accounts.only_publishing (Machine.pool (after race_until_promotion crawler0)).
Proof.
  split; [vm_compute; reflexivity|].
  refine (proj2 (proj2 (promotion_waits_for_merges config0 [seed "http://h/"] crawler0
                          (after race_until_promotion crawler0) _ _ _))).
  - vm_compute. reflexivity.
  - apply Runs.after_reachable. vm_compute. eauto.
  - vm_compute. reflexivity.
Defined.

Lemma closed_when_exhausted_witness :
  Machine.fn (after early_close crawler0) = None ∧
  Machine.queue (Machine.crawler (after early_close crawler0)) = [].
Proof.
  split; [vm_compute; reflexivity|].
  refine (proj1 (closed_when_exhausted config0 [seed "http://h/"] crawler0
                   (after early_close crawler0) _ _ _)).
  - vm_compute. reflexivity.
  - apply Runs.after_reachable. vm_compute. eauto.
  - vm_compute. reflexivity.
Defined.


Lemma robots_cache_never_filled_witness :
  Machine.robots (Machine.crawler (after private_run crawler_private)) =
  Machine.robots crawler_private.
Proof.
  refine (proj1 (robots_cache_never_filled crawler_private
                   (after private_run crawler_private) _)).
  apply Runs.after_reachable. vm_compute. eauto.
Defined.

Lemma machine_never_panics_witness :
  Machine.call Machine.fnNext false no_robots (Machine.crawler (after race crawler0)) ≠
  Machine.Panics Machine.NilDereference.
Proof.
  apply (machine_never_panics config0 [seed "http://h/"] crawler0 (after race crawler0)).
  - vm_compute. reflexivity.
  - apply Runs.after_reachable. vm_compute. eauto.
  - vm_compute. reflexivity.
Defined.


Lemma no_connections_no_fetch_witness :
  Machine.CrawlList config_closed [seed "http://h/"] = Some crawler_closed ∧
  Machine.pool (after [turn; turn] crawler_closed) = [].
Proof.
  split; [vm_compute; reflexivity|].
  refine (proj1 (no_connections_no_fetch config_closed [seed "http://h/"] crawler_closed
                   (after [turn; turn] crawler_closed) _ _ _)).
  - vm_compute. reflexivity.
  - reflexivity.
  - apply Runs.after_reachable. vm_compute. eauto.
Defined.

End Checks.
